(** * find-sha1-hulud-users: membership resolution and CSV escaping

    A shallow embedding of [src/github.ts] and of [escapeCSV] from
    [src/output.ts], with the properties stated about them.

    Conventions of the embedding:
    - a JavaScript string is a [string]; the characters the code inspects
      (comma, line feed, double quote) are ASCII;
    - [Set] and [Map] keep insertion order, so they are lists without
      repeated keys, updated the way [Set.prototype.add] and
      [Map.prototype.set] do;
    - the remote API is a record of answers ([Octokit]); a paginated
      iterator is the stream of its pages, ended by exhaustion or by a
      rejected fetch;
    - a function that may throw returns a [Completion];
    - the two host functions [String.prototype.toLowerCase] and
      [String.prototype.localeCompare] are Section variables, with ASCII
      instances to run the definitions on concrete inputs;
    - the tasks started by [checkUserMemberships] settle in an order chosen
      by the event loop, given to the model as a schedule. *)

From Stdlib Require Import List String Ascii Bool Arith ZArith Lia.
From Stdlib Require Import Sorted Permutation RelationClasses.
From Stdlib Require OrdersEx DecimalString.
Import ListNotations.
Local Open Scope string_scope.
Local Open Scope list_scope.

Set Implicit Arguments.

(** ** Characters and strings *)

Definition dquote : ascii := "034"%char.
Definition comma : ascii := ","%char.
Definition newline : ascii := "010"%char.

(** [value.includes(sub)]: [sub] occurs in [value] at some position. *)
Fixpoint includes (value sub : string) : bool :=
  prefix sub value ||
  match value with
  | EmptyString => false
  | String _ rest => includes rest sub
  end.

(** [value.replace(/c/g, by)] for a one-character pattern [c]. *)
Fixpoint replaceAll (c : ascii) (by_ : string) (value : string) : string :=
  match value with
  | EmptyString => EmptyString
  | String d rest =>
      if Ascii.eqb d c then (by_ ++ replaceAll c by_ rest)%string
      else String d (replaceAll c by_ rest)
  end.

Definition str1 (c : ascii) : string := String c EmptyString.

(** ** Insertion-ordered sets and maps *)

Module JSSet.
Definition t := list string.

Definition empty : t := [].

Definition has (x : string) (s : t) : bool :=
  existsb (String.eqb x) s.

Definition add (x : string) (s : t) : t :=
  if has x s then s else s ++ [x].

(** [new Set(iterable)] *)
Definition of_list (l : list string) : t :=
  fold_left (fun s x => add x s) l empty.

Definition size (s : t) : nat := List.length s.
End JSSet.

Module JSMap.
Section WithValue.
Variable V : Type.

Definition t := list (string * V).

Definition empty : t := [].

Fixpoint get (k : string) (m : t) : option V :=
  match m with
  | [] => None
  | (k', v) :: rest => if String.eqb k k' then Some v else get k rest
  end.

(** An existing key keeps its position and takes the new value; a new
    key goes to the end. *)
Fixpoint set (k : string) (v : V) (m : t) : t :=
  match m with
  | [] => [(k, v)]
  | (k', v') :: rest =>
      if String.eqb k k' then (k', v) :: rest
      else (k', v') :: set k v rest
  end.

Definition keys (m : t) : list string := map fst m.
End WithValue.
Arguments empty {V}.
End JSMap.

(** [l1] is [l2] with some elements left out, the others in their order. *)
Inductive Subsequence {A : Type} : list A -> list A -> Prop :=
| Subsequence_nil : Subsequence [] []
| Subsequence_skip : forall x l1 l2,
    Subsequence l1 l2 -> Subsequence l1 (x :: l2)
| Subsequence_take : forall x l1 l2,
    Subsequence l1 l2 -> Subsequence (x :: l1) (x :: l2).

(** ** Data model of github.ts *)

Record SearchResult := {
  sr_owner : string;
  sr_repo : string;
  sr_url : string;
}.

Inductive MembershipType := member | outside_collaborator | none.

Definition MembershipType_eqb (a b : MembershipType) : bool :=
  match a, b with
  | member, member => true
  | outside_collaborator, outside_collaborator => true
  | none, none => true
  | _, _ => false
  end.

Record UserMembership := {
  um_username : string;
  um_organizations : JSMap.t MembershipType;
}.

Record OrganizationInfo := {
  login : string;
  outsideCollaborators : JSSet.t;
}.

Record Membership := {
  org : string;
  type : MembershipType;
}.

Record UserResult := {
  ur_username : string;
  ur_repositories : list SearchResult;
  ur_memberships : list Membership;
}.

(** ** Exceptions and the remote API *)

(** A thrown value: an [Error] with its message, or anything else. *)
Inductive Thrown :=
| ErrorObject (message : string)
| OtherValue.

Inductive Completion (A : Type) :=
| Returned (value : A)
| Threw (error : Thrown).
Arguments Returned {A} value.
Arguments Threw {A} error.

(** The pages an async iterator yields: it ends, yields a page and goes on,
    or the fetch of the next page is rejected. *)
Inductive Pages (A : Type) :=
| EndOfPages
| Page (data : A) (next : Pages A)
| FetchRejected (error : Thrown).
Arguments EndOfPages {A}.
Arguments Page {A} data next.
Arguments FetchRejected {A} error.

Record Octokit := {
  (* [rest.orgs.listOutsideCollaborators]: the logins of each page *)
  listOutsideCollaborators : string -> Pages (list string);
  (* the GraphQL enterprise query: [enterprise?.organizations?.nodes] of
      each response, [None] when a link of the chain is nullish *)
  enterpriseOrganizations : string -> Pages (option (list string));
  (* [rest.orgs.checkMembershipForUser], by organization login and
      username: fulfilled, or rejected with an error *)
  checkMembershipForUser : string -> string -> Completion unit;
}.

(** The page at which a stream is rejected, if any. *)
Fixpoint rejection {A} (p : Pages A) : option Thrown :=
  match p with
  | EndOfPages => None
  | Page _ next => rejection next
  | FetchRejected e => Some e
  end.

Section Github.

Variable toLowerCase : string -> string.

(** *** fetchOutsideCollaborators *)

(** The [for await] loop over the pages, adding to [collaborators]; the
    set is the one declared before the [try], so what was added before a
    rejection stays in it. The second component is the value the loop
    threw, if it did. *)
Fixpoint drainCollaborators (p : Pages (list string)) (collaborators : JSSet.t)
  : JSSet.t * option Thrown :=
  match p with
  | EndOfPages => (collaborators, None)
  | Page data next =>
      drainCollaborators next
        (fold_left (fun s l => JSSet.add (toLowerCase l) s) data collaborators)
  | FetchRejected e => (collaborators, Some e)
  end.

Definition fetchOutsideCollaborators (octokit : Octokit) (org : string)
  : JSSet.t :=
  let collaborators := JSSet.empty in
  (* try { ... } catch { core.debug(...) } *)
  let '(collaborators, _) :=
    drainCollaborators (listOutsideCollaborators octokit org) collaborators in
  collaborators.

(** *** getEnterpriseOrganizations *)

Fixpoint drainOrganizations (p : Pages (option (list string)))
    (orgLogins : list string) : Completion (list string) :=
  match p with
  | EndOfPages => Returned orgLogins
  | Page response next =>
      let nodes := match response with Some n => n | None => [] end in
      drainOrganizations next (orgLogins ++ nodes)
  | FetchRejected e => Threw e
  end.

Definition errorMessage (error : Thrown) : string :=
  match error with
  | ErrorObject message => message
  | OtherValue => "Unknown error"
  end.

Definition getEnterpriseOrganizations (octokit : Octokit) (enterprise : string)
  : Completion (list OrganizationInfo) :=
  match drainOrganizations (enterpriseOrganizations octokit enterprise) [] with
  | Returned orgLogins =>
      (* every fetch catches its own failures, so Promise.all fulfils with
         the results in the order of orgLogins *)
      let results :=
        map (fun login =>
               {| login := login;
                  outsideCollaborators := fetchOutsideCollaborators octokit login |})
            orgLogins in
      Returned ([] ++ results)
  | Threw error =>
      let message := errorMessage error in
      Threw (ErrorObject ("Failed to fetch enterprise organizations: " ++ message)%string)
  end.

(** *** checkUserMembershipInOrg *)

Definition checkUserMembershipInOrg (octokit : Octokit) (org : OrganizationInfo)
    (username : string) : MembershipType :=
  match checkMembershipForUser octokit (login org) username with
  | Returned _ => member
  | Threw _ =>
      if JSSet.has (toLowerCase username) (outsideCollaborators org)
      then outside_collaborator
      else none
  end.

(** *** checkUserMemberships

    The loop starts, for every username it keeps, one check per
    organization and awaits none of them; each check's callback runs when
    its request settles, in an order the code does not control. A schedule
    lists the settlements in the order they happen, [(i, j)] standing for
    the check of the [i]-th started user against the [j]-th organization. *)

(** The [for] loop over [uniqueUsernames]: a username whose lower case is
    in [userCache] is skipped, the others start their checks. *)
Fixpoint startedUsernames (uniqueUsernames : list string) (userCache : JSSet.t)
  : list string :=
  match uniqueUsernames with
  | [] => []
  | username :: rest =>
      if JSSet.has (toLowerCase username) userCache
      then startedUsernames rest userCache
      else username
           :: startedUsernames rest (JSSet.add (toLowerCase username) userCache)
  end.

(** A started user: the [userMembership] object its callbacks share, and
    the organizations (by position) whose check has not settled yet. *)
Record UserTask := {
  ut_membership : UserMembership;
  ut_pending : list nat;
}.

Record Engine := {
  tasks : list UserTask;
  userMemberships : JSMap.t UserMembership;
}.

Fixpoint replace_nth {A} (i : nat) (x : A) (l : list A) : list A :=
  match l, i with
  | [], _ => []
  | _ :: rest, O => x :: rest
  | y :: rest, S i' => y :: replace_nth i' x rest
  end.

Definition isEmpty {A} (l : list A) : bool :=
  match l with [] => true | _ => false end.

(** [Promise.all(orgPromises).then(() => userMemberships.set(...))]: runs
    once no check of the user is pending. The model commits a user at the
    event that settles its last check. *)
Definition commitWhenSettled (task : UserTask)
    (userMemberships : JSMap.t UserMembership) : JSMap.t UserMembership :=
  if isEmpty (ut_pending task)
  then JSMap.set (um_username (ut_membership task)) (ut_membership task)
         userMemberships
  else userMemberships.

(** A user as the loop leaves it: an empty organizations map and a check in
    flight for every organization. *)
Definition initialTask (organizations : list OrganizationInfo)
    (username : string) : UserTask :=
  {| ut_membership :=
       {| um_username := username; um_organizations := JSMap.empty |};
     ut_pending := seq 0 (List.length organizations) |}.

(** The state when the loop has run: every started user has all its
    checks in flight; with no organization at all, [Promise.all([])] is
    fulfilled at once and the users are committed in loop order. *)
Definition startEngine (organizations : list OrganizationInfo)
    (started : list string) : Engine :=
  let tasks := map (initialTask organizations) started in
  {| tasks := tasks;
     userMemberships :=
       fold_left (fun um task => commitWhenSettled task um) tasks JSMap.empty |}.

(** The callback of one organization check, run when it settles. *)
Definition orgCallback (octokit : Octokit) (org : OrganizationInfo)
    (userMembership : UserMembership) : UserMembership :=
  let username := um_username userMembership in
  let membership := checkUserMembershipInOrg octokit org username in
  if negb (MembershipType_eqb membership none)
  then {| um_username := username;
          um_organizations :=
            JSMap.set (login org) membership (um_organizations userMembership) |}
  else userMembership.

(** The event [(i, j)]: the check of started user [i] against organization
    [j] settles. An event for a check that is not in flight does nothing. *)
Definition settle (octokit : Octokit) (organizations : list OrganizationInfo)
    (engine : Engine) (event : nat * nat) : Engine :=
  let '(i, j) := event in
  match nth_error (tasks engine) i, nth_error organizations j with
  | Some task, Some org =>
      if existsb (Nat.eqb j) (ut_pending task) then
        let task' :=
          {| ut_membership := orgCallback octokit org (ut_membership task);
             ut_pending := filter (fun k => negb (Nat.eqb k j)) (ut_pending task) |} in
        {| tasks := replace_nth i task' (tasks engine);
           userMemberships := commitWhenSettled task' (userMemberships engine) |}
      else engine
  | _, _ => engine
  end.

(** The function fulfils, with [userMemberships], once every started user
    is committed; [None] is a promise still pending when the schedule is
    exhausted. *)
Definition checkUserMemberships (octokit : Octokit)
    (organizations : list OrganizationInfo) (usernames : list string)
    (schedule : list (nat * nat)) : option (JSMap.t UserMembership) :=
  let userCache := JSSet.empty in
  let uniqueUsernames := JSSet.of_list usernames in
  let engine :=
    fold_left (settle octokit organizations) schedule
      (startEngine organizations (startedUsernames uniqueUsernames userCache)) in
  if forallb (fun task => isEmpty (ut_pending task)) (tasks engine)
  then Some (userMemberships engine)
  else None.

(** The schedule in which every check settles in the order it was
    started. *)
Definition inOrderSchedule (users orgs : nat) : list (nat * nat) :=
  flat_map (fun i => map (fun j => (i, j)) (seq 0 orgs)) (seq 0 users).

(** The event [j] as one user's task sees it, and the events of user [i]
    in a schedule, in schedule order. *)
Definition settleTask (octokit : Octokit) (organizations : list OrganizationInfo)
    (task : UserTask) (j : nat) : UserTask :=
  match nth_error organizations j with
  | Some org =>
      if existsb (Nat.eqb j) (ut_pending task) then
        {| ut_membership := orgCallback octokit org (ut_membership task);
           ut_pending := filter (fun k => negb (Nat.eqb k j)) (ut_pending task) |}
      else task
  | None => task
  end.

Definition eventsOf (i : nat) (schedule : list (nat * nat)) : list nat :=
  map snd (filter (fun event => Nat.eqb (fst event) i) schedule).

(** The usernames [checkUserMemberships] starts checks for. *)
Definition worklist (usernames : list string) : list string :=
  startedUsernames (JSSet.of_list usernames) JSSet.empty.

(** What holds of the organizations map of a user at any time: no [none],
    every key the login of an organization whose check gave the value, no
    key twice. *)
Definition relationshipsOnly (octokit : Octokit)
    (organizations : list OrganizationInfo) (userMembership : UserMembership)
  : Prop :=
  (forall o ty,
      In (o, ty) (um_organizations userMembership) ->
      ty <> none
      /\ exists org,
          In org organizations /\ login org = o
          /\ ty = checkUserMembershipInOrg octokit org
                    (um_username userMembership))
  /\ NoDup (JSMap.keys (um_organizations userMembership)).

(** Every committed entry is the membership object of a user none of whose
    checks is pending, under that user's name. *)
Definition committed (engine : Engine) : Prop :=
  forall k v,
    In (k, v) (userMemberships engine) ->
    exists i task,
      nth_error (tasks engine) i = Some task
      /\ ut_membership task = v
      /\ um_username v = k
      /\ ut_pending task = [].

(** *** aggregateResults *)

Variable localeCompare : string -> string -> Z.

(** [userRepos.get(owner) ?? []] *)
Definition reposOf (userRepos : JSMap.t (list SearchResult)) (owner : string)
  : list SearchResult :=
  match JSMap.get owner userRepos with
  | Some e => e
  | None => []
  end.

(** The body of the grouping loop. *)
Definition groupStep (userRepos : JSMap.t (list SearchResult))
    (repo : SearchResult) : JSMap.t (list SearchResult) :=
  let existing := reposOf userRepos (sr_owner repo) in
  JSMap.set (sr_owner repo) (existing ++ [repo]) userRepos.

Definition groupByOwner (repositories : list SearchResult)
  : JSMap.t (list SearchResult) :=
  fold_left groupStep repositories JSMap.empty.

Definition membershipList (memberships : JSMap.t UserMembership)
    (username : string) : list Membership :=
  match JSMap.get username memberships with
  | Some membership =>
      map (fun '(org, type) => {| org := org; type := type |})
          (um_organizations membership)
  | None => []
  end.

Definition buildResults (userRepos : JSMap.t (list SearchResult))
    (memberships : JSMap.t UserMembership) : list UserResult :=
  map (fun '(username, repos) =>
         {| ur_username := username;
            ur_repositories := repos;
            ur_memberships := membershipList memberships username |})
      userRepos.

Definition compareResults (a b : UserResult) : Z :=
  if negb (List.length (ur_memberships b) =? List.length (ur_memberships a))%nat
  then (Z.of_nat (List.length (ur_memberships b))
        - Z.of_nat (List.length (ur_memberships a)))%Z
  else localeCompare (ur_username a) (ur_username b).

(** The order the comparator of [aggregateResults] puts results in: more
    memberships first, then by username. *)
Definition ordersBefore (a b : UserResult) : Prop :=
  (List.length (ur_memberships b) < List.length (ur_memberships a))%nat
  \/ (List.length (ur_memberships a) = List.length (ur_memberships b)
      /\ (localeCompare (ur_username a) (ur_username b) <= 0)%Z).

(** [x] may come before [y] under a comparator. *)
Definition ordered {A} (comparefn : A -> A -> Z) (x y : A) : Prop :=
  (comparefn x y <= 0)%Z.

(** [Array.prototype.sort(comparefn)] is stable, and for a consistent
    comparator its result is the one stable arrangement in comparator
    order ([sortsStably] below); insertion from the right computes it. *)
Fixpoint insertSorted {A} (comparefn : A -> A -> Z) (x : A) (sorted : list A)
  : list A :=
  match sorted with
  | [] => [x]
  | y :: rest =>
      if (comparefn x y <=? 0)%Z then x :: sorted
      else y :: insertSorted comparefn x rest
  end.

Definition sort {A} (comparefn : A -> A -> Z) (l : list A) : list A :=
  fold_right (insertSorted comparefn) [] l.

(** What the language asks of [sort], whatever algorithm an engine uses:
    [out] holds elements of [l], in comparator order, and the elements that
    compare equal to one another are the same, in the same order, in [out]
    as in [l]. *)
Definition sameClass {A} (comparefn : A -> A -> Z) (x y : A) : bool :=
  (comparefn x y =? 0)%Z.

Definition sortsStably {A} (comparefn : A -> A -> Z) (l out : list A) : Prop :=
  StronglySorted (ordered comparefn) out
  /\ incl out l
  /\ Forall (fun x => filter (sameClass comparefn x) out
                      = filter (sameClass comparefn x) l) l.

Definition aggregateResults (repositories : list SearchResult)
    (memberships : JSMap.t UserMembership) : list UserResult :=
  let userRepos := groupByOwner repositories in
  let results := buildResults userRepos memberships in
  sort compareResults results.

End Github.

(** ** searchSha1HuludRepositories (github.ts) *)

Definition SEARCH_QUERY : string := "Sha1-Hulud: The Second Coming".

(** An item of a repository search page: [owner] is [null] for some
    repositories, otherwise it has a [login]. *)
Record RepoItem := {
  item_owner : option string;
  item_name : string;
  item_html_url : string;
}.

(** The body of the inner loop: a repository without owner is skipped. *)
Definition pushRepo (results : list SearchResult) (repo : RepoItem)
  : list SearchResult :=
  match item_owner repo with
  | Some ownerLogin =>
      results ++ [{| sr_owner := ownerLogin;
                     sr_repo := item_name repo;
                     sr_url := item_html_url repo |}]
  | None => results
  end.

Fixpoint drainSearch (p : Pages (list RepoItem)) (results : list SearchResult)
  : Completion (list SearchResult) :=
  match p with
  | EndOfPages => Returned results
  | Page data next => drainSearch next (fold_left pushRepo data results)
  | FetchRejected e => Threw e
  end.

(** [searchRepos q] stands for the iterator over
    [octokit.rest.search.repos] with query [q]. *)
Definition searchSha1HuludRepositories
    (searchRepos : string -> Pages (list RepoItem))
  : Completion (list SearchResult) :=
  match drainSearch (searchRepos SEARCH_QUERY) [] with
  | Returned results => Returned results
  | Threw error =>
      let message := errorMessage error in
      Threw (ErrorObject
               ("Failed to search for Sha1-Hulud repositories: " ++ message)%string)
  end.

(** The search results the items of a page stand for. *)
Definition searchResultsOf (items : list RepoItem) : list SearchResult :=
  fold_left pushRepo items [].

(** All the items of the pages a stream yields before it ends or is
    rejected. *)
Fixpoint pageItems {A} (p : Pages (list A)) : list A :=
  match p with
  | EndOfPages => []
  | Page data next => data ++ pageItems next
  | FetchRejected _ => []
  end.

(** The nodes of the responses of the enterprise query. *)
Fixpoint pageNodes (p : Pages (option (list string))) : list string :=
  match p with
  | EndOfPages => []
  | Page response next =>
      match response with Some n => n | None => [] end ++ pageNodes next
  | FetchRejected _ => []
  end.

(** ** output.ts: escapeHtml *)

Definition escapeHtml (unsafe : string) : string :=
  replaceAll "'"%char "&#039;"
    (replaceAll dquote "&quot;"
       (replaceAll ">"%char "&gt;"
          (replaceAll "<"%char "&lt;"
             (replaceAll "&"%char "&amp;" unsafe)))).

(** What the five replacements together make of one character. *)
Definition escapeChar (c : ascii) : string :=
  if Ascii.eqb c "&"%char then "&amp;"
  else if Ascii.eqb c "<"%char then "&lt;"
  else if Ascii.eqb c ">"%char then "&gt;"
  else if Ascii.eqb c dquote then "&quot;"
  else if Ascii.eqb c "'"%char then "&#039;"
  else str1 c.

(** ** output.ts: calculateStats *)

Record SummaryStats := {
  totalRepositories : nat;
  uniqueUsers : nat;
  usersWithMemberships : nat;
  totalMemberships : nat;
}.

(** [user.memberships.length > 0] *)
Definition hasMemberships (user : UserResult) : bool :=
  (0 <? List.length (ur_memberships user))%nat.

(** The total length of the repository lists of a grouping. *)
Definition groupedCount (userRepos : JSMap.t (list SearchResult)) : nat :=
  list_sum (map (fun entry => List.length (snd entry)) userRepos).

(** The three counters of the loop, after one more user. *)
Definition countUser (counters : nat * nat * nat) (user : UserResult)
  : nat * nat * nat :=
  let '(totalRepositories, usersWithMemberships, totalMemberships) := counters in
  let totalRepositories :=
    (totalRepositories + List.length (ur_repositories user))%nat in
  if (0 <? List.length (ur_memberships user))%nat
  then (totalRepositories, S usersWithMemberships,
        (totalMemberships + List.length (ur_memberships user))%nat)
  else (totalRepositories, usersWithMemberships, totalMemberships).

Definition calculateStats (results : list UserResult) : SummaryStats :=
  let '(totalRepositories, usersWithMemberships, totalMemberships) :=
    fold_left countUser results (0, 0, 0)%nat in
  {| totalRepositories := totalRepositories;
     uniqueUsers := List.length results;
     usersWithMemberships := usersWithMemberships;
     totalMemberships := totalMemberships |}.

(** ** escapeCSV (output.ts) *)

Definition escapeCSV (value : string) : string :=
  if includes value (str1 comma) || includes value (str1 newline)
     || includes value (str1 dquote)
  then (str1 dquote ++ replaceAll dquote (String dquote (str1 dquote)) value
        ++ str1 dquote)%string
  else value.

(** The reader's side of a CSV field, as the format defines it: a field that
    opens with a double quote runs to its closing quote, and a doubled quote
    inside it stands for one quote; any other field is taken as it is. *)
Fixpoint unquoteBody (s : string) : string :=
  match s with
  | EmptyString => EmptyString
  | String c rest =>
      if Ascii.eqb c dquote then
        match rest with
        | String c' rest' =>
            if Ascii.eqb c' dquote then String dquote (unquoteBody rest')
            else EmptyString
        | EmptyString => EmptyString
        end
      else String c (unquoteBody rest)
  end.

Definition unescapeCSV (field : string) : string :=
  match field with
  | String c body => if Ascii.eqb c dquote then unquoteBody body else field
  | EmptyString => field
  end.

(** ** output.ts: generateCSVContent *)

(** [Array.prototype.join] is [String.concat]; [n.toString()] of an array
    length is its decimal notation. *)
Definition natToString (n : nat) : string :=
  DecimalString.NilEmpty.string_of_uint (Nat.to_uint n).

Definition typeName (t : MembershipType) : string :=
  match t with
  | member => "member"
  | outside_collaborator => "outside_collaborator"
  | none => "none"
  end.

Definition formatRepositoriesForCSV (repos : list SearchResult) : string :=
  String.concat "; " (map sr_url repos).

Definition formatMembership (m : Membership) : string :=
  (org m ++ " (" ++ typeName (type m) ++ ")")%string.

Definition csvHeaders : list string :=
  ["Username"; "Profile URL"; "Repository Count"; "Repositories";
   "Has Enterprise Membership"; "Memberships"].

Definition csvRow (user : UserResult) : list string :=
  [escapeCSV (ur_username user);
   escapeCSV ("https://github.com/" ++ ur_username user)%string;
   natToString (List.length (ur_repositories user));
   escapeCSV (formatRepositoriesForCSV (ur_repositories user));
   if (0 <? List.length (ur_memberships user))%nat then "Yes" else "No";
   escapeCSV (String.concat "; " (map formatMembership (ur_memberships user)))].

Definition generateCSVContent (results : list UserResult) : string :=
  let headers := csvHeaders in
  let rows := map csvRow results in
  let csvLines := String.concat "," headers :: map (String.concat ",") rows in
  String.concat (str1 newline) csvLines.

(** The values a row of the file stands for, before escaping. *)
Definition rowValues (user : UserResult) : list string :=
  [ur_username user;
   ("https://github.com/" ++ ur_username user)%string;
   natToString (List.length (ur_repositories user));
   formatRepositoriesForCSV (ur_repositories user);
   if (0 <? List.length (ur_memberships user))%nat then "Yes" else "No";
   String.concat "; " (map formatMembership (ur_memberships user))].

(** The reader's side of a CSV file, as the format defines it: a comma
    outside quotes ends a field, a line feed outside quotes ends a record,
    a field that opens with a double quote runs to its closing quote, and a
    doubled quote inside it stands for one quote. *)
Inductive CsvMode := FieldStart | Unquoted | Quoted | QuoteSeen.

Record CsvReader := {
  csv_records : list (list string);
  csv_record : list string;
  csv_field : string;
  csv_mode : CsvMode;
}.

Definition csvStart : CsvReader :=
  {| csv_records := []; csv_record := []; csv_field := EmptyString;
     csv_mode := FieldStart |}.

Definition keepChar (r : CsvReader) (c : ascii) (m : CsvMode) : CsvReader :=
  {| csv_records := csv_records r; csv_record := csv_record r;
     csv_field := (csv_field r ++ str1 c)%string; csv_mode := m |}.

Definition endField (r : CsvReader) : CsvReader :=
  {| csv_records := csv_records r;
     csv_record := csv_record r ++ [csv_field r];
     csv_field := EmptyString; csv_mode := FieldStart |}.

Definition endRecord (r : CsvReader) : CsvReader :=
  {| csv_records := csv_records r ++ [csv_record r ++ [csv_field r]];
     csv_record := []; csv_field := EmptyString; csv_mode := FieldStart |}.

Definition outsideQuotes (r : CsvReader) (c : ascii) : CsvReader :=
  if Ascii.eqb c comma then endField r
  else if Ascii.eqb c newline then endRecord r
  else keepChar r c Unquoted.

Definition readChar (r : CsvReader) (c : ascii) : CsvReader :=
  match csv_mode r with
  | FieldStart =>
      if Ascii.eqb c dquote
      then {| csv_records := csv_records r; csv_record := csv_record r;
              csv_field := csv_field r; csv_mode := Quoted |}
      else outsideQuotes r c
  | Unquoted => outsideQuotes r c
  | Quoted =>
      if Ascii.eqb c dquote
      then {| csv_records := csv_records r; csv_record := csv_record r;
              csv_field := csv_field r; csv_mode := QuoteSeen |}
      else keepChar r c Quoted
  | QuoteSeen =>
      if Ascii.eqb c dquote then keepChar r c Quoted
      else outsideQuotes r c
  end.

Fixpoint readAll (r : CsvReader) (s : string) : CsvReader :=
  match s with
  | EmptyString => r
  | String c rest => readAll (readChar r c) rest
  end.

Definition parseCSV (content : string) : list (list string) :=
  csv_records (endRecord (readAll csvStart content)).

(** ** Host functions on ASCII text, to run the definitions *)

Definition asciiLower (c : ascii) : ascii :=
  let n := nat_of_ascii c in
  if (65 <=? n)%nat && (n <=? 90)%nat then ascii_of_nat (n + 32) else c.

Fixpoint asciiToLowerCase (s : string) : string :=
  match s with
  | EmptyString => EmptyString
  | String c rest => String (asciiLower c) (asciiToLowerCase rest)
  end.

Definition codeUnitCompare (a b : string) : Z :=
  match OrdersEx.String_as_OT.compare a b with
  | Lt => (-1)%Z
  | Eq => 0%Z
  | Gt => 1%Z
  end.

(** ** Sample data *)

Definition notFound : Thrown := ErrorObject "Not Found".

(** An API where the listing of acme's outside collaborators yields one page
    and is then rejected, and no direct membership check succeeds. *)
Definition acmeApi : Octokit := {|
  listOutsideCollaborators := fun org =>
    if String.eqb org "acme"
    then Page ["Bob"] (FetchRejected (ErrorObject "API rate limit exceeded"))
    else EndOfPages;
  enterpriseOrganizations := fun _ => Page (Some ["acme"]) EndOfPages;
  checkMembershipForUser := fun _ _ => Threw notFound;
|}.

(** An API whose enterprise query is rejected on its second page. *)
Definition brokenEnterpriseApi : Octokit := {|
  listOutsideCollaborators := fun _ => EndOfPages;
  enterpriseOrganizations := fun _ =>
    Page (Some ["acme"]) (FetchRejected (ErrorObject "Bad credentials"));
  checkMembershipForUser := fun _ _ => Threw notFound;
|}.

(** An API in which everybody is a member of every organization. *)
Definition allMembersApi : Octokit := {|
  listOutsideCollaborators := fun _ => EndOfPages;
  enterpriseOrganizations := fun _ => EndOfPages;
  checkMembershipForUser := fun _ _ => Returned tt;
|}.

Definition repoOf (owner name : string) : SearchResult := {|
  sr_owner := owner;
  sr_repo := name;
  sr_url := ("https://github.com/" ++ owner ++ "/" ++ name)%string;
|}.

(** Four repositories of three owners; bob and alice have two memberships
    each, aaron has no entry in the membership map. *)
Definition sampleRepositories : list SearchResult :=
  [repoOf "bob" "x"; repoOf "aaron" "y"; repoOf "alice" "z"; repoOf "bob" "w"].

Definition sampleMemberships : JSMap.t UserMembership :=
  [("bob",
    {| um_username := "bob";
       um_organizations := [("acme", member); ("initech", outside_collaborator)] |});
   ("alice",
    {| um_username := "alice";
       um_organizations := [("acme", outside_collaborator); ("globex", member)] |})].

Definition sampleResults : list UserResult :=
  [{| ur_username := "alice";
      ur_repositories := [repoOf "alice" "z"];
      ur_memberships :=
        [{| org := "acme"; type := outside_collaborator |};
         {| org := "globex"; type := member |}] |};
   {| ur_username := "bob";
      ur_repositories := [repoOf "bob" "x"; repoOf "bob" "w"];
      ur_memberships :=
        [{| org := "acme"; type := member |};
         {| org := "initech"; type := outside_collaborator |}] |};
   {| ur_username := "aaron";
      ur_repositories := [repoOf "aaron" "y"];
      ur_memberships := [] |}].

(** Two organizations without outside collaborators. *)
Definition twoOrganizations : list OrganizationInfo :=
  [{| login := "acme"; outsideCollaborators := JSSet.empty |};
   {| login := "beta"; outsideCollaborators := JSSet.empty |}].

(** The scenario of one organization whose collaborator set holds mallory. *)
Definition acmeWithMallory : list OrganizationInfo :=
  [{| login := "acme"; outsideCollaborators := ["mallory"] |}].

(** A search that yields two pages, with one repository without owner, and
    one that is rejected after its first page. *)
Definition sampleItems : list RepoItem :=
  [{| item_owner := Some "bob"; item_name := "x";
      item_html_url := "https://github.com/bob/x" |};
   {| item_owner := None; item_name := "ghost";
      item_html_url := "https://github.com/ghost" |}].

Definition sampleSearch (q : string) : Pages (list RepoItem) :=
  if String.eqb q SEARCH_QUERY
  then Page sampleItems
         (Page [{| item_owner := Some "Alice"; item_name := "z";
                   item_html_url := "https://github.com/Alice/z" |}]
            EndOfPages)
  else EndOfPages.

Definition brokenSearch (q : string) : Pages (list RepoItem) :=
  Page sampleItems (FetchRejected (ErrorObject "Validation Failed")).

(** An API whose listings succeed: acme lists Bob and carol as outside
    collaborators, and no direct membership check succeeds. *)
Definition listingApi : Octokit := {|
  listOutsideCollaborators := fun org =>
    if String.eqb org "acme"
    then Page ["Bob"] (Page ["carol"; "BOB"] EndOfPages)
    else EndOfPages;
  enterpriseOrganizations := fun _ =>
    Page (Some ["acme"]) (Page None (Page (Some ["beta"]) EndOfPages));
  checkMembershipForUser := fun _ _ => Threw notFound;
|}.

(** The names checked in the mallory scenario, the entry the run gives and
    the result built from it. *)
Definition malloryNames : list string := ["Mallory"; "mallory"; "Mallory"].

Definition malloryEntry : UserMembership :=
  {| um_username := "Mallory";
     um_organizations := [("acme", outside_collaborator)] |}.

Definition malloryResult : UserResult :=
  {| ur_username := "Mallory";
     ur_repositories := [repoOf "Mallory" "x"];
     ur_memberships := [{| org := "acme"; type := outside_collaborator |}] |}.

(** * Properties *)

(** ** MembershipResolver: checkUserMembershipInOrg *)

Section ResolverProperties.

Variable toLowerCase : string -> string.

(** C1: when the direct membership query is fulfilled the result is
    [member], for any organization, hence whatever its collaborator cache
    holds. *)
Theorem direct_membership_wins :
  forall (octokit : Octokit) (org : OrganizationInfo) (username : string) r,
    checkMembershipForUser octokit (login org) username = Returned r ->
    checkUserMembershipInOrg toLowerCase octokit org username = member.
Proof.
  intros octokit o username r Hdirect.
  unfold checkUserMembershipInOrg.
  now rewrite Hdirect.
Qed.

(** C2: when the direct membership query is rejected, with any thrown value,
    the result is [outside_collaborator] if the lower-cased username is in
    the organization's collaborator set and [none] if it is not. *)
Theorem rejected_check_falls_back_to_cache :
  forall (octokit : Octokit) (org : OrganizationInfo) (username : string) error,
    checkMembershipForUser octokit (login org) username = Threw error ->
    (JSSet.has (toLowerCase username) (outsideCollaborators org) = true ->
     checkUserMembershipInOrg toLowerCase octokit org username
     = outside_collaborator)
    /\ (JSSet.has (toLowerCase username) (outsideCollaborators org) = false ->
        checkUserMembershipInOrg toLowerCase octokit org username = none).
Proof.
  intros octokit o username error Hdirect.
  unfold checkUserMembershipInOrg.
  rewrite Hdirect.
  split; intros Hcache; now rewrite Hcache.
Qed.

End ResolverProperties.

Lemma direct_membership_wins_witness :
  JSSet.has (asciiToLowerCase "Alice") ["alice"] = true
  /\ checkUserMembershipInOrg asciiToLowerCase allMembersApi
       {| login := "acme"; outsideCollaborators := ["alice"] |} "Alice"
     = member.
Proof.
  split; [reflexivity|].
  apply (@direct_membership_wins asciiToLowerCase allMembersApi
           {| login := "acme"; outsideCollaborators := ["alice"] |} "Alice" tt).
  reflexivity.
Defined.

Lemma rejected_check_falls_back_to_cache_witness :
  checkUserMembershipInOrg asciiToLowerCase acmeApi
    {| login := "acme"; outsideCollaborators := ["bob"] |} "Bob"
  = outside_collaborator
  /\ checkUserMembershipInOrg asciiToLowerCase acmeApi
       {| login := "acme"; outsideCollaborators := ["bob"] |} "Carol"
     = none.
Proof.
  split.
  - apply (@rejected_check_falls_back_to_cache asciiToLowerCase acmeApi
             {| login := "acme"; outsideCollaborators := ["bob"] |} "Bob" notFound);
      reflexivity.
  - apply (@rejected_check_falls_back_to_cache asciiToLowerCase acmeApi
             {| login := "acme"; outsideCollaborators := ["bob"] |} "Carol" notFound);
      reflexivity.
Defined.

(** ** CollaboratorCache: fetchOutsideCollaborators *)

Section CacheProperties.

Variable toLowerCase : string -> string.

(** A listing rejected on its first fetch leaves the set empty. *)
Lemma fetch_rejected_at_once_is_empty :
  forall octokit org error,
    listOutsideCollaborators octokit org = FetchRejected error ->
    fetchOutsideCollaborators toLowerCase octokit org = JSSet.empty.
Proof.
  intros octokit o error Hlist.
  unfold fetchOutsideCollaborators. now rewrite Hlist.
Qed.

(** A page read before a rejection is kept: the set returned is the one
    the loop had built when it threw. *)
Lemma fetch_rejected_later_keeps_page :
  forall octokit org data error,
    listOutsideCollaborators octokit org = Page data (FetchRejected error) ->
    fetchOutsideCollaborators toLowerCase octokit org
    = fold_left (fun s l => JSSet.add (toLowerCase l) s) data JSSet.empty.
Proof.
  intros octokit o data error Hlist.
  unfold fetchOutsideCollaborators. now rewrite Hlist.
Qed.

End CacheProperties.

(** C3, the code at a failing input: the listing for acme yields a page
    holding Bob and is rejected on the next fetch; the set returned is not
    empty, it holds bob, and bob, whose direct membership check is rejected,
    resolves to [outside_collaborator] and not to [none]. *)
Theorem late_rejection_keeps_earlier_pages :
  rejection (listOutsideCollaborators acmeApi "acme")
  = Some (ErrorObject "API rate limit exceeded")
  /\ fetchOutsideCollaborators asciiToLowerCase acmeApi "acme" = ["bob"]
  /\ checkMembershipForUser acmeApi "acme" "bob" = Threw notFound
  /\ checkUserMembershipInOrg asciiToLowerCase acmeApi
       {| login := "acme";
          outsideCollaborators :=
            fetchOutsideCollaborators asciiToLowerCase acmeApi "acme" |}
       "bob"
     = outside_collaborator.
Proof. repeat split. Qed.

(** ** OrganizationDirectory: getEnterpriseOrganizations *)

Section DirectoryProperties.

Variable toLowerCase : string -> string.

Lemma drainOrganizations_rejected :
  forall pages orgLogins error,
    rejection pages = Some error ->
    drainOrganizations pages orgLogins = Threw error.
Proof.
  induction pages as [|response next IH|e]; intros orgLogins error Hrej;
    simpl in *.
  - discriminate.
  - now apply IH.
  - congruence.
Qed.

Lemma drainOrganizations_returns :
  forall pages orgLogins,
    rejection pages = None ->
    exists logins, drainOrganizations pages orgLogins = Returned logins.
Proof.
  induction pages as [|response next IH|e]; intros orgLogins Hrej;
    simpl in *.
  - now exists orgLogins.
  - now apply IH.
  - discriminate.
Qed.

(** Without a rejected page the directory is returned. *)
Lemma getEnterpriseOrganizations_returns :
  forall octokit enterprise,
    rejection (enterpriseOrganizations octokit enterprise) = None ->
    exists organizations,
      getEnterpriseOrganizations toLowerCase octokit enterprise
      = Returned organizations.
Proof.
  intros octokit enterprise Hrej.
  unfold getEnterpriseOrganizations.
  destruct (drainOrganizations_returns _ [] Hrej) as [logins ->].
  eauto.
Qed.

(** C8: when a fetch of the enterprise's organization pages is rejected, at
    the first page or at a later one, [getEnterpriseOrganizations] throws an
    [Error] whose message is the fixed prefix followed by the message of the
    underlying error; it returns no list, whole or partial. *)
Theorem enumeration_failure_is_fatal :
  forall (octokit : Octokit) (enterprise : string) (error : Thrown),
    rejection (enterpriseOrganizations octokit enterprise) = Some error ->
    getEnterpriseOrganizations toLowerCase octokit enterprise
    = Threw (ErrorObject
               ("Failed to fetch enterprise organizations: "
                ++ errorMessage error)%string)
    /\ (forall message, error = ErrorObject message ->
        getEnterpriseOrganizations toLowerCase octokit enterprise
        = Threw (ErrorObject
                   ("Failed to fetch enterprise organizations: "
                    ++ message)%string))
    /\ (forall organizations,
        getEnterpriseOrganizations toLowerCase octokit enterprise
        <> Returned organizations).
Proof.
  intros octokit enterprise error Hrej.
  assert (Hthrows :
    getEnterpriseOrganizations toLowerCase octokit enterprise
    = Threw (ErrorObject
               ("Failed to fetch enterprise organizations: "
                ++ errorMessage error)%string)).
  { unfold getEnterpriseOrganizations.
    now rewrite (drainOrganizations_rejected _ [] Hrej). }
  split; [exact Hthrows|split].
  - intros message ->. exact Hthrows.
  - intros organizations Hret. rewrite Hthrows in Hret. discriminate.
Qed.

End DirectoryProperties.

Lemma enumeration_failure_is_fatal_witness :
  getEnterpriseOrganizations asciiToLowerCase brokenEnterpriseApi "corp"
  = Threw (ErrorObject
             "Failed to fetch enterprise organizations: Bad credentials").
Proof.
  exact (proj1 (@enumeration_failure_is_fatal asciiToLowerCase
                  brokenEnterpriseApi "corp" (ErrorObject "Bad credentials")
                  eq_refl)).
Defined.

(** ** escapeCSV *)

Section CsvProperties.

Lemma prefix_str1 :
  forall c value,
    prefix (str1 c) value
    = match value with
      | String d _ => Ascii.eqb c d
      | EmptyString => false
      end.
Proof.
  intros c [|d rest]; simpl; [reflexivity|].
  destruct (ascii_dec c d) as [->|Hne].
  - rewrite Ascii.eqb_refl. now destruct rest.
  - symmetry. now apply Ascii.eqb_neq.
Qed.

Lemma includes_char :
  forall c value,
    includes value (str1 c) = true <-> In c (list_ascii_of_string value).
Proof.
  intros c value. induction value as [|d rest IH].
  - simpl. split; [discriminate|tauto].
  - cbn [includes list_ascii_of_string In].
    rewrite prefix_str1, orb_true_iff, IH, Ascii.eqb_eq.
    split; intros [H|H]; auto.
Qed.

Lemma includes_char_false :
  forall c value,
    includes value (str1 c) = false <-> ~ In c (list_ascii_of_string value).
Proof.
  intros c value. rewrite <- includes_char.
  now destruct (includes value (str1 c)).
Qed.

Lemma unquoteBody_doubled :
  forall value,
    unquoteBody
      (replaceAll dquote (String dquote (str1 dquote)) value ++ str1 dquote)
    = value.
Proof.
  induction value as [|c rest IH]; [reflexivity|].
  cbn [replaceAll].
  destruct (Ascii.eqb c dquote) eqn:Hc.
  - apply Ascii.eqb_eq in Hc. subst c.
    cbn [append str1 unquoteBody]. rewrite Ascii.eqb_refl.
    fold (str1 dquote). now rewrite IH.
  - cbn [append unquoteBody]. rewrite Hc. now rewrite IH.
Qed.

Lemma unescapeCSV_plain :
  forall value,
    ~ In dquote (list_ascii_of_string value) -> unescapeCSV value = value.
Proof.
  intros [|c rest] Hnone; [reflexivity|].
  cbn [unescapeCSV].
  destruct (Ascii.eqb c dquote) eqn:Hc; [|reflexivity].
  apply Ascii.eqb_eq in Hc. subst c.
  exfalso. apply Hnone. now left.
Qed.

(** C10: a value with no comma, line feed or double quote is returned as it
    is; any other value is returned between double quotes with every double
    quote of it doubled; and reading the field back the way CSV does (outer
    quotes dropped, doubled quotes collapsed) gives the value again. *)
Theorem escapeCSV_roundtrip :
  forall value : string,
    let chars := list_ascii_of_string value in
    (~ In comma chars /\ ~ In newline chars /\ ~ In dquote chars ->
     escapeCSV value = value)
    /\ (In comma chars \/ In newline chars \/ In dquote chars ->
        escapeCSV value
        = (str1 dquote
           ++ replaceAll dquote (String dquote (str1 dquote)) value
           ++ str1 dquote)%string)
    /\ unescapeCSV (escapeCSV value) = value.
Proof.
  intros value chars. subst chars.
  unfold escapeCSV.
  destruct (includes value (str1 comma) || includes value (str1 newline)
            || includes value (str1 dquote)) eqn:Hspecial.
  - split; [|split].
    + intros (Hc & Hn & Hq).
      apply includes_char_false in Hc, Hn, Hq.
      rewrite Hc, Hn, Hq in Hspecial. discriminate.
    + reflexivity.
    + cbn [append str1 unescapeCSV]. rewrite Ascii.eqb_refl.
      fold (str1 dquote). apply unquoteBody_doubled.
  - apply orb_false_iff in Hspecial as [Hspecial Hq].
    apply orb_false_iff in Hspecial as [Hc Hn].
    apply includes_char_false in Hc, Hn, Hq.
    split; [|split].
    + reflexivity.
    + intros [H|[H|H]]; contradiction.
    + now apply unescapeCSV_plain.
Qed.

End CsvProperties.

Lemma escapeCSV_roundtrip_witness :
  escapeCSV "acme-bot" = "acme-bot"
  /\ escapeCSV "a,b" = String dquote ("a,b" ++ str1 dquote)
  /\ unescapeCSV (escapeCSV (String dquote "x,y")) = String dquote "x,y".
Proof.
  split; [|split].
  - apply (proj1 (escapeCSV_roundtrip "acme-bot")).
    simpl. repeat split; intros H;
      repeat (destruct H as [H|H]; [discriminate|]); exact H.
  - apply (proj1 (proj2 (escapeCSV_roundtrip "a,b"))).
    simpl. left. right. left. reflexivity.
  - apply (proj2 (proj2 (escapeCSV_roundtrip (String dquote "x,y")))).
Defined.

(** ** Facts on insertion-ordered maps and sets *)

Module JSMapFacts.
Section WithValue.
Variable V : Type.
Implicit Types (m : JSMap.t V) (k : string) (v : V).

Lemma in_set : forall m k v k' v',
    In (k', v') (JSMap.set k v m) -> (k' = k /\ v' = v) \/ In (k', v') m.
Proof.
  induction m as [|[k0 v0] rest IH]; intros k v k' v' Hin; simpl in *.
  - destruct Hin as [Heq|[]]. inversion Heq. auto.
  - destruct (String.eqb k k0) eqn:Hk.
    + apply String.eqb_eq in Hk. subst k0.
      destruct Hin as [Heq|Hin]; [inversion Heq; auto|auto].
    + destruct Hin as [Heq|Hin]; [auto|].
      destruct (IH _ _ _ _ Hin); auto.
Qed.

Lemma in_keys_set : forall m k v k',
    In k' (JSMap.keys (JSMap.set k v m)) <-> k' = k \/ In k' (JSMap.keys m).
Proof.
  induction m as [|[k0 v0] rest IH]; intros k v k'; simpl.
  - intuition.
  - destruct (String.eqb k k0) eqn:Hk; simpl.
    + apply String.eqb_eq in Hk. subst k0. intuition.
    + fold (JSMap.keys (JSMap.set k v rest)). rewrite IH.
      fold (JSMap.keys rest). intuition.
Qed.

Lemma keys_set : forall m k v,
    JSMap.keys (JSMap.set k v m)
    = if JSSet.has k (JSMap.keys m) then JSMap.keys m
      else JSMap.keys m ++ [k].
Proof.
  induction m as [|[k0 v0] rest IH]; intros k v; simpl; [reflexivity|].
  destruct (String.eqb k k0) eqn:Hk; simpl; [reflexivity|].
  fold (JSMap.keys (JSMap.set k v rest)). rewrite IH.
  fold (JSMap.keys rest). unfold JSSet.has.
  now destruct (existsb (String.eqb k) (JSMap.keys rest)).
Qed.

Lemma NoDup_keys_set : forall m k v,
    NoDup (JSMap.keys m) -> NoDup (JSMap.keys (JSMap.set k v m)).
Proof.
  induction m as [|[k0 v0] rest IH]; intros k v Hnd; simpl.
  - constructor; [tauto|constructor].
  - simpl in Hnd. inversion Hnd as [|? ? Hnotin Hrest]; subst.
    destruct (String.eqb k k0) eqn:Hk; simpl.
    + now constructor.
    + constructor; [|now apply IH].
      fold (JSMap.keys (JSMap.set k v rest)). rewrite in_keys_set.
      intros [->|Hin]; [|contradiction].
      now rewrite String.eqb_refl in Hk.
Qed.

Lemma get_set_same : forall m k v, JSMap.get k (JSMap.set k v m) = Some v.
Proof.
  induction m as [|[k0 v0] rest IH]; intros k v; simpl.
  - now rewrite String.eqb_refl.
  - destruct (String.eqb k k0) eqn:Hk; simpl; rewrite Hk; auto.
Qed.

Lemma get_set_other : forall m k v k',
    k' <> k -> JSMap.get k' (JSMap.set k v m) = JSMap.get k' m.
Proof.
  induction m as [|[k0 v0] rest IH]; intros k v k' Hne; simpl.
  - apply String.eqb_neq in Hne. now rewrite Hne.
  - destruct (String.eqb k k0) eqn:Hk; simpl.
    + apply String.eqb_eq in Hk. subst k0.
      apply String.eqb_neq in Hne. now rewrite Hne.
    + destruct (String.eqb k' k0); auto.
Qed.

Lemma get_in : forall m k v, JSMap.get k m = Some v -> In (k, v) m.
Proof.
  induction m as [|[k0 v0] rest IH]; intros k v Hget; simpl in *.
  - discriminate.
  - destruct (String.eqb k k0) eqn:Hk.
    + apply String.eqb_eq in Hk. left. congruence.
    + right. now apply IH.
Qed.

Lemma in_get : forall m k v,
    NoDup (JSMap.keys m) -> In (k, v) m -> JSMap.get k m = Some v.
Proof.
  induction m as [|[k0 v0] rest IH]; intros k v Hnd Hin; simpl in *.
  - contradiction.
  - inversion Hnd as [|? ? Hnotin Hrest]; subst.
    destruct Hin as [Heq|Hin].
    + inversion Heq; subst. now rewrite String.eqb_refl.
    + destruct (String.eqb k k0) eqn:Hk.
      * apply String.eqb_eq in Hk. subst k0. exfalso. apply Hnotin.
        apply in_map_iff. now exists (k, v).
      * now apply IH.
Qed.

Lemma get_none : forall m k,
    JSMap.get k m = None <-> ~ In k (JSMap.keys m).
Proof.
  induction m as [|[k0 v0] rest IH]; intros k; simpl.
  - tauto.
  - destruct (String.eqb k k0) eqn:Hk.
    + apply String.eqb_eq in Hk. subst k0.
      split; [discriminate|]. intros H. exfalso. apply H. now left.
    + apply String.eqb_neq in Hk. rewrite IH.
      fold (JSMap.keys rest). split; intros H; [|tauto].
      intros [Heq|Hin]; [congruence|tauto].
Qed.
End WithValue.
End JSMapFacts.

Module JSSetFacts.
Lemma has_true : forall x s, JSSet.has x s = true <-> In x s.
Proof.
  intros x s. unfold JSSet.has. rewrite existsb_exists. split.
  - intros (y & Hin & Heq). apply String.eqb_eq in Heq. now subst.
  - intros Hin. exists x. split; [assumption|apply String.eqb_refl].
Qed.

Lemma has_false : forall x s, JSSet.has x s = false <-> ~ In x s.
Proof.
  intros x s. rewrite <- has_true. now destruct (JSSet.has x s).
Qed.

Lemma in_add : forall x y s, In y (JSSet.add x s) <-> y = x \/ In y s.
Proof.
  intros x y s. unfold JSSet.add.
  destruct (JSSet.has x s) eqn:Hhas.
  - apply has_true in Hhas. split; [auto|]. intros [->|H]; auto.
  - rewrite in_app_iff. simpl. intuition.
Qed.

Lemma NoDup_add : forall x s, NoDup s -> NoDup (JSSet.add x s).
Proof.
  intros x s Hnd. unfold JSSet.add.
  destruct (JSSet.has x s) eqn:Hhas; [assumption|].
  apply has_false in Hhas.
  apply NoDup_app; auto.
  - constructor; [tauto|constructor].
  - intros y Hin [->|[]]. contradiction.
Qed.
End JSSetFacts.

(** ** Array.prototype.sort *)

Section SortFacts.
Variable A : Type.
Variable comparefn : A -> A -> Z.

Lemma insertSorted_Permutation :
  forall x sorted, Permutation (insertSorted comparefn x sorted) (x :: sorted).
Proof.
  induction sorted as [|y rest IH]; simpl; [reflexivity|].
  destruct (comparefn x y <=? 0)%Z; [reflexivity|].
  rewrite IH. apply perm_swap.
Qed.

Lemma sort_Permutation : forall l, Permutation (sort comparefn l) l.
Proof.
  induction l as [|x rest IH]; simpl; [reflexivity|].
  rewrite insertSorted_Permutation. now constructor.
Qed.

(** A consistent comparator: a total preorder. *)
Hypothesis comparefn_antisym :
  forall x y, Z.sgn (comparefn y x) = (- Z.sgn (comparefn x y))%Z.
Hypothesis comparefn_trans :
  forall x y z,
    (comparefn x y <= 0 -> comparefn y z <= 0 -> comparefn x z <= 0)%Z.

Lemma comparefn_flip :
  forall x y, (comparefn x y < 0 <-> 0 < comparefn y x)%Z.
Proof.
  intros x y. pose proof (comparefn_antisym x y) as Hsgn.
  destruct (Z.sgn_spec (comparefn x y)) as [[? ?]|[[? ?]|[? ?]]];
    destruct (Z.sgn_spec (comparefn y x)) as [[? ?]|[[? ?]|[? ?]]];
    lia.
Qed.

Lemma comparefn_total :
  forall x y, (comparefn x y <= 0 \/ comparefn y x <= 0)%Z.
Proof.
  intros x y. pose proof (comparefn_flip y x). lia.
Qed.

Lemma sameClass_refl : forall x, sameClass comparefn x x = true.
Proof.
  intros x. unfold sameClass. apply Z.eqb_eq.
  pose proof (comparefn_flip x x). lia.
Qed.

Lemma sameClass_sym :
  forall x y, sameClass comparefn x y = sameClass comparefn y x.
Proof.
  intros x y. unfold sameClass.
  pose proof (comparefn_flip x y). pose proof (comparefn_flip y x).
  destruct (Z.eqb_spec (comparefn x y) 0), (Z.eqb_spec (comparefn y x) 0);
    try reflexivity; lia.
Qed.

Lemma sameClass_both :
  forall x y,
    (comparefn x y <= 0)%Z -> (comparefn y x <= 0)%Z ->
    sameClass comparefn x y = true.
Proof.
  intros x y Hxy Hyx. unfold sameClass. apply Z.eqb_eq.
  pose proof (comparefn_flip x y). lia.
Qed.

(** An element that [y] must come after is not in the class of [y]. *)
Lemma sameClass_after :
  forall x y w,
    sameClass comparefn x y = true -> (0 < comparefn y w)%Z ->
    sameClass comparefn x w = false.
Proof.
  intros x y w Hxy Hyw.
  destruct (sameClass comparefn x w) eqn:Hxw; [|reflexivity].
  unfold sameClass in *. apply Z.eqb_eq in Hxy, Hxw.
  pose proof (comparefn_flip x y).
  assert (comparefn y w <= 0)%Z; [|lia].
  apply comparefn_trans with (y := x); lia.
Qed.

Lemma insertSorted_filter :
  forall x y sorted,
    filter (sameClass comparefn x) (insertSorted comparefn y sorted)
    = filter (sameClass comparefn x) (y :: sorted).
Proof.
  intros x y. induction sorted as [|z rest IH]; [reflexivity|].
  cbn [insertSorted].
  destruct (comparefn y z <=? 0)%Z eqn:Hyz; [reflexivity|].
  apply Z.leb_gt in Hyz.
  cbn [filter] in *. rewrite IH.
  destruct (sameClass comparefn x y) eqn:Hxy; [|reflexivity].
  now rewrite (@sameClass_after x y z Hxy Hyz).
Qed.

Lemma sort_filter :
  forall x l,
    filter (sameClass comparefn x) (sort comparefn l)
    = filter (sameClass comparefn x) l.
Proof.
  intros x. induction l as [|y rest IH]; [reflexivity|].
  cbn [sort fold_right]. fold (sort comparefn rest).
  rewrite insertSorted_filter. cbn [filter]. now rewrite IH.
Qed.

(** Two lists in comparator order with the same classes are the same. *)
Lemma sorted_classes_unique :
  forall out1 out2,
    StronglySorted (ordered comparefn) out1 ->
    StronglySorted (ordered comparefn) out2 ->
    (forall x, In x out1 \/ In x out2 ->
               filter (sameClass comparefn x) out1
               = filter (sameClass comparefn x) out2) ->
    out1 = out2.
Proof.
  induction out1 as [|a o1 IH]; intros [|b o2] Hs1 Hs2 Hclasses.
  - reflexivity.
  - specialize (Hclasses b (or_intror (or_introl eq_refl))).
    cbn [filter] in Hclasses. rewrite sameClass_refl in Hclasses.
    discriminate.
  - specialize (Hclasses a (or_introl (or_introl eq_refl))).
    cbn [filter] in Hclasses. rewrite sameClass_refl in Hclasses.
    discriminate.
  - inversion Hs1 as [|? ? Hs1' Hall1]; subst.
    inversion Hs2 as [|? ? Hs2' Hall2]; subst.
    rewrite Forall_forall in Hall1, Hall2.
    assert (a = b) as <-.
    { pose proof (Hclasses a (or_introl (or_introl eq_refl))) as Ha.
      pose proof (Hclasses b (or_intror (or_introl eq_refl))) as Hb.
      cbn [filter] in Ha, Hb.
      rewrite sameClass_refl in Ha, Hb.
      rewrite (sameClass_sym b a) in Hb.
      destruct (sameClass comparefn a b) eqn:Hab; [congruence|].
      assert (Hin_a : In a o2).
      { eapply (proj1 (filter_In (sameClass comparefn a) a o2)).
        rewrite <- Ha. now left. }
      assert (Hin_b : In b o1).
      { eapply (proj1 (filter_In (sameClass comparefn b) b o1)).
        rewrite Hb. now left. }
      rewrite (@sameClass_both a b (Hall1 _ Hin_b) (Hall2 _ Hin_a)) in Hab.
      discriminate. }
    f_equal. apply IH; [assumption|assumption|].
    intros x Hx.
    assert (Hx' : In x (a :: o1) \/ In x (a :: o2)).
    { destruct Hx; [left|right]; now right. }
    specialize (Hclasses x Hx'). cbn [filter] in Hclasses.
    destruct (sameClass comparefn x a); congruence.
Qed.

Lemma sortsStably_unique :
  forall l out1 out2,
    sortsStably comparefn l out1 -> sortsStably comparefn l out2 ->
    out1 = out2.
Proof.
  intros l out1 out2 (Hs1 & Hincl1 & Hst1) (Hs2 & Hincl2 & Hst2).
  apply sorted_classes_unique; [assumption|assumption|].
  rewrite Forall_forall in Hst1, Hst2.
  intros x [Hx|Hx].
  - rewrite Hst1, Hst2; auto.
  - rewrite Hst1, Hst2; auto.
Qed.

Lemma insertSorted_StronglySorted :
  forall x sorted,
    StronglySorted (ordered comparefn) sorted ->
    StronglySorted (ordered comparefn) (insertSorted comparefn x sorted).
Proof.
  induction sorted as [|y rest IH]; intros Hsorted; simpl.
  - constructor; constructor.
  - inversion Hsorted as [|? ? Hrest Hall]; subst.
    destruct (comparefn x y <=? 0)%Z eqn:Hxy.
    + apply Z.leb_le in Hxy. constructor; [assumption|].
      constructor; [exact Hxy|].
      eapply Forall_impl; [|exact Hall].
      intros z Hyz. unfold ordered in *. eauto.
    + apply Z.leb_gt in Hxy.
      assert (Hyx : ordered comparefn y x).
      { unfold ordered. destruct (comparefn_total x y); lia. }
      constructor; [now apply IH|].
      eapply Permutation_Forall.
      * symmetry. apply insertSorted_Permutation.
      * now constructor.
Qed.

Lemma sort_StronglySorted :
  forall l, StronglySorted (ordered comparefn) (sort comparefn l).
Proof.
  induction l as [|x rest IH]; simpl.
  - constructor.
  - now apply insertSorted_StronglySorted.
Qed.

Lemma sort_sortsStably :
  forall l, sortsStably comparefn l (sort comparefn l).
Proof.
  intros l. split; [apply sort_StronglySorted|split].
  - intros x. apply Permutation_in. apply sort_Permutation.
  - apply Forall_forall. intros x _. apply sort_filter.
Qed.
End SortFacts.

Lemma StronglySorted_weaken :
  forall (A : Type) (R S : A -> A -> Prop) (l : list A),
    (forall x y, R x y -> S x y) ->
    StronglySorted R l -> StronglySorted S l.
Proof.
  intros A R S l Himpl Hsorted.
  induction Hsorted as [|x rest Hrest IH Hall]; constructor.
  - exact IH.
  - eapply Forall_impl; [|exact Hall]. intros y. apply Himpl.
Qed.

(** ** ResultAggregator: aggregateResults *)

Section GroupingProperties.

Lemma group_keys :
  forall repositories userRepos owner,
    In owner (JSMap.keys (fold_left groupStep repositories userRepos))
    <-> In owner (JSMap.keys userRepos)
        \/ In owner (map sr_owner repositories).
Proof.
  induction repositories as [|repo rest IH]; intros userRepos owner; simpl.
  - tauto.
  - rewrite IH. unfold groupStep. rewrite JSMapFacts.in_keys_set.
    intuition.
Qed.

Lemma group_NoDup :
  forall repositories userRepos,
    NoDup (JSMap.keys userRepos) ->
    NoDup (JSMap.keys (fold_left groupStep repositories userRepos)).
Proof.
  induction repositories as [|repo rest IH]; intros userRepos Hnd; simpl.
  - assumption.
  - apply IH. now apply JSMapFacts.NoDup_keys_set.
Qed.

Lemma group_repos :
  forall repositories userRepos owner,
    reposOf (fold_left groupStep repositories userRepos) owner
    = reposOf userRepos owner
      ++ filter (fun repo => String.eqb (sr_owner repo) owner) repositories.
Proof.
  induction repositories as [|repo rest IH]; intros userRepos owner; simpl.
  - now rewrite app_nil_r.
  - rewrite IH.
    destruct (String.eqb (sr_owner repo) owner) eqn:Howner.
    + apply String.eqb_eq in Howner. subst owner.
      unfold groupStep, reposOf at 1.
      rewrite JSMapFacts.get_set_same.
      now rewrite <- app_assoc.
    + apply String.eqb_neq in Howner.
      unfold groupStep, reposOf at 1.
      rewrite JSMapFacts.get_set_other by congruence.
      reflexivity.
Qed.

Lemma groupByOwner_keys :
  forall repositories owner,
    In owner (JSMap.keys (groupByOwner repositories))
    <-> In owner (map sr_owner repositories).
Proof.
  intros repositories owner. unfold groupByOwner.
  rewrite group_keys. simpl. tauto.
Qed.

Lemma groupByOwner_NoDup :
  forall repositories, NoDup (JSMap.keys (groupByOwner repositories)).
Proof.
  intros repositories. apply group_NoDup. constructor.
Qed.

Lemma groupByOwner_entry :
  forall repositories owner repos,
    In (owner, repos) (groupByOwner repositories) ->
    repos = filter (fun r => String.eqb (sr_owner r) owner) repositories.
Proof.
  intros repositories owner repos Hin.
  apply JSMapFacts.in_get in Hin; [|apply groupByOwner_NoDup].
  pose proof (group_repos repositories JSMap.empty owner) as Hrepos.
  fold (groupByOwner repositories) in Hrepos.
  unfold reposOf in Hrepos.
  rewrite Hin in Hrepos. simpl in Hrepos. exact Hrepos.
Qed.

End GroupingProperties.

Section AggregateProperties.

Variable localeCompare : string -> string -> Z.

Lemma buildResults_usernames :
  forall userRepos memberships,
    map ur_username (buildResults userRepos memberships)
    = JSMap.keys userRepos.
Proof.
  intros userRepos memberships. unfold buildResults, JSMap.keys.
  rewrite map_map. apply map_ext. now intros [username repos].
Qed.

Lemma in_buildResults :
  forall userRepos memberships r,
    In r (buildResults userRepos memberships) ->
    In (ur_username r, ur_repositories r) userRepos
    /\ ur_memberships r = membershipList memberships (ur_username r).
Proof.
  intros userRepos memberships r Hin. unfold buildResults in Hin.
  apply in_map_iff in Hin as ([username repos] & <- & Hin). now simpl.
Qed.

Lemma aggregateResults_Permutation :
  forall repositories memberships,
    Permutation (aggregateResults localeCompare repositories memberships)
      (buildResults (groupByOwner repositories) memberships).
Proof.
  intros. unfold aggregateResults. apply sort_Permutation.
Qed.

Lemma aggregateResults_usernames :
  forall repositories memberships,
    Permutation
      (map ur_username
         (aggregateResults localeCompare repositories memberships))
      (nodup string_dec (map sr_owner repositories)).
Proof.
  intros repositories memberships.
  rewrite (Permutation_map ur_username
             (aggregateResults_Permutation repositories memberships)).
  rewrite buildResults_usernames.
  apply NoDup_Permutation.
  - apply groupByOwner_NoDup.
  - apply NoDup_nodup.
  - intros owner. rewrite groupByOwner_keys, nodup_In. tauto.
Qed.

Lemma aggregateResults_memberships :
  forall repositories memberships r,
    In r (aggregateResults localeCompare repositories memberships) ->
    ur_memberships r = membershipList memberships (ur_username r).
Proof.
  intros repositories memberships r Hin.
  apply (Permutation_in _ (aggregateResults_Permutation _ _)) in Hin.
  now apply in_buildResults in Hin.
Qed.

(** C6: the usernames of the results are the distinct raw owner strings of
    the repositories, each exactly once (no case folding takes place); the
    repositories of a result are the input repositories of that owner in
    their input order; and a result whose username has no entry in the
    membership map has an empty memberships list. *)
Theorem aggregateResults_groups_by_raw_owner :
  forall (repositories : list SearchResult)
         (memberships : JSMap.t UserMembership),
    let results := aggregateResults localeCompare repositories memberships in
    let owners := nodup string_dec (map sr_owner repositories) in
    Permutation (map ur_username results) owners
    /\ List.length results = List.length owners
    /\ (forall r, In r results ->
        ur_repositories r
        = filter (fun repo => String.eqb (sr_owner repo) (ur_username r))
            repositories)
    /\ (forall r, In r results ->
        JSMap.get (ur_username r) memberships = None ->
        ur_memberships r = []).
Proof.
  intros repositories memberships results owners.
  pose proof (aggregateResults_usernames repositories memberships) as Hperm.
  split; [exact Hperm|split; [|split]].
  - apply Permutation_length in Hperm. now rewrite length_map in Hperm.
  - intros r Hin.
    apply (Permutation_in _ (aggregateResults_Permutation _ _)) in Hin.
    apply in_buildResults in Hin as [Hentry _].
    now apply groupByOwner_entry.
  - intros r Hin Hnone.
    rewrite (aggregateResults_memberships _ _ _ Hin).
    unfold membershipList. now rewrite Hnone.
Qed.

Lemma compareResults_ordersBefore :
  forall a b,
    (compareResults localeCompare a b <= 0)%Z <-> ordersBefore localeCompare a b.
Proof.
  intros a b. unfold compareResults, ordersBefore.
  destruct (Nat.eqb_spec (List.length (ur_memberships b))
              (List.length (ur_memberships a))) as [Heq|Hne]; simpl.
  - rewrite Heq. intuition lia.
  - intuition lia.
Qed.

(** [localeCompare] is a consistent comparator. *)
Hypothesis localeCompare_antisym :
  forall x y, Z.sgn (localeCompare y x) = (- Z.sgn (localeCompare x y))%Z.
Hypothesis localeCompare_trans :
  forall x y z,
    (localeCompare x y <= 0 -> localeCompare y z <= 0 ->
     localeCompare x z <= 0)%Z.

Lemma localeCompare_flip :
  forall x y, (localeCompare x y < 0 <-> 0 < localeCompare y x)%Z.
Proof.
  intros x y. pose proof (localeCompare_antisym x y) as Hsgn.
  destruct (Z.sgn_spec (localeCompare x y)) as [[? ?]|[[? ?]|[? ?]]];
    destruct (Z.sgn_spec (localeCompare y x)) as [[? ?]|[[? ?]|[? ?]]];
    lia.
Qed.

Lemma compareResults_antisym :
  forall a b,
    Z.sgn (compareResults localeCompare b a)
    = (- Z.sgn (compareResults localeCompare a b))%Z.
Proof.
  intros a b. unfold compareResults.
  destruct (Nat.eqb_spec (List.length (ur_memberships b))
              (List.length (ur_memberships a))) as [Heq|Hne];
    destruct (Nat.eqb_spec (List.length (ur_memberships a))
                (List.length (ur_memberships b))) as [Heq'|Hne'];
    simpl; try contradiction; try (exfalso; congruence).
  - apply localeCompare_antisym.
  - rewrite <- Z.sgn_opp. f_equal. lia.
Qed.

Lemma compareResults_trans :
  forall a b c,
    (compareResults localeCompare a b <= 0 ->
     compareResults localeCompare b c <= 0 ->
     compareResults localeCompare a c <= 0)%Z.
Proof.
  intros a b c. rewrite !compareResults_ordersBefore. unfold ordersBefore.
  intros [Hab|[Hab Hlab]] [Hbc|[Hbc Hlbc]]; try (left; lia).
  right. split; [lia|]. eapply localeCompare_trans; eassumption.
Qed.

Lemma aggregateResults_sorted :
  forall repositories memberships,
    StronglySorted (ordersBefore localeCompare)
      (aggregateResults localeCompare repositories memberships).
Proof.
  intros repositories memberships. unfold aggregateResults.
  eapply StronglySorted_weaken.
  2: { apply sort_StronglySorted;
       [apply compareResults_antisym|apply compareResults_trans]. }
  intros a b Hab. now apply compareResults_ordersBefore.
Qed.

(** C9: the output of [aggregateResults] is the grouped results put in
    comparator order by a stable sort, and there is only one such
    arrangement: two runs on the same repositories and the same membership
    map, whatever sorting algorithm each run uses, give the same results in
    the same order. *)
Theorem aggregateResults_deterministic :
  forall (repositories : list SearchResult)
         (memberships : JSMap.t UserMembership),
    let results := buildResults (groupByOwner repositories) memberships in
    sortsStably (compareResults localeCompare) results
      (aggregateResults localeCompare repositories memberships)
    /\ (forall first second : list UserResult,
        sortsStably (compareResults localeCompare) results first ->
        sortsStably (compareResults localeCompare) results second ->
        first = second).
Proof.
  intros repositories memberships results. split.
  - unfold aggregateResults.
    apply sort_sortsStably;
      [apply compareResults_antisym|apply compareResults_trans].
  - intros first second Hfirst Hsecond.
    eapply sortsStably_unique; try eassumption.
    apply compareResults_antisym.
Qed.

(** C7: the results come in order of membership count, larger counts
    first, and among equal counts in ascending [localeCompare] order of the
    usernames. In particular, when the owners are A with two memberships, B
    with none and C with two, and C compares before A, the results are those
    of C, A, B in this order. *)
Theorem aggregateResults_order :
  forall (repositories : list SearchResult)
         (memberships : JSMap.t UserMembership),
    StronglySorted (ordersBefore localeCompare)
      (aggregateResults localeCompare repositories memberships)
    /\ (forall a b c : string,
        Permutation (nodup string_dec (map sr_owner repositories)) [a; b; c] ->
        List.length (membershipList memberships a) = 2%nat ->
        List.length (membershipList memberships b) = 0%nat ->
        List.length (membershipList memberships c) = 2%nat ->
        (localeCompare c a < 0)%Z ->
        map ur_username
          (aggregateResults localeCompare repositories memberships)
        = [c; a; b]).
Proof.
  intros repositories memberships.
  pose proof (aggregateResults_sorted repositories memberships) as Hsorted.
  split; [exact Hsorted|].
  intros a b c Howners Ha Hb Hc Hca.
  pose proof (aggregateResults_usernames repositories memberships) as Hperm.
  rewrite Howners in Hperm.
  pose proof (aggregateResults_memberships repositories memberships) as Hmem.
  assert (Hac : (0 < localeCompare a c)%Z) by now apply localeCompare_flip.
  assert (Haa : localeCompare a a = 0%Z).
  { pose proof (localeCompare_flip a a). lia. }
  assert (Hnd : NoDup [a; b; c]).
  { repeat constructor; simpl; intros H; decompose [or] H; subst;
      try congruence; try lia; contradiction. }
  destruct (aggregateResults localeCompare repositories memberships)
    as [|[x rx mx] [|[y ry my] [|[z rz mz] [|extra rest]]]];
    try (apply Permutation_length in Hperm; discriminate).
  pose proof (Hmem _ (or_introl eq_refl)) as Hx.
  pose proof (Hmem _ (or_intror (or_introl eq_refl))) as Hy.
  pose proof (Hmem _ (or_intror (or_intror (or_introl eq_refl)))) as Hz.
  simpl in Hx, Hy, Hz, Hperm |- *. subst mx my mz.
  inversion Hsorted as [|? ? Hsorted' Hall]; subst.
  inversion Hall as [|? ? Hxy Hall']; subst.
  inversion Hall' as [|? ? Hxz _]; subst.
  inversion Hsorted' as [|? ? _ Hall'']; subst.
  inversion Hall'' as [|? ? Hyz _]; subst.
  unfold ordersBefore in Hxy, Hxz, Hyz. simpl in Hxy, Hxz, Hyz.
  assert (Hnd' : NoDup [x; y; z]).
  { eapply Permutation_NoDup; [symmetry; exact Hperm|exact Hnd]. }
  assert (Hin : forall u, In u [x; y; z] -> In u [a; b; c]).
  { intros u. apply Permutation_in. exact Hperm. }
  pose proof (Hin x (or_introl eq_refl)) as Hinx.
  pose proof (Hin y (or_intror (or_introl eq_refl))) as Hiny.
  pose proof (Hin z (or_intror (or_intror (or_introl eq_refl)))) as Hinz.
  inversion Hnd' as [|? ? Hx_notin Hnd'']; subst.
  inversion Hnd'' as [|? ? Hy_notin _]; subst.
  simpl in Hinx, Hiny, Hinz, Hx_notin, Hy_notin.
  destruct Hinx as [<-|[<-|[<-|[]]]];
    destruct Hiny as [<-|[<-|[<-|[]]]];
    destruct Hinz as [<-|[<-|[<-|[]]]];
    try reflexivity; try tauto; exfalso;
    rewrite ?Ha, ?Hb, ?Hc in *; lia.
Qed.

End AggregateProperties.

(** [codeUnitCompare] is a consistent comparator. *)
Lemma string_lt_irrefl :
  forall x, ~ OrdersEx.String_as_OT.lt x x.
Proof. intros x. apply (StrictOrder_Irreflexive x). Qed.

Lemma string_lt_trans :
  forall x y z,
    OrdersEx.String_as_OT.lt x y -> OrdersEx.String_as_OT.lt y z ->
    OrdersEx.String_as_OT.lt x z.
Proof. intros x y z. apply (StrictOrder_Transitive x y z). Qed.

Ltac string_order_absurd :=
  exfalso;
  match goal with
  | H : OrdersEx.String_as_OT.lt ?x ?x |- _ =>
      exact (string_lt_irrefl H)
  | H1 : OrdersEx.String_as_OT.lt ?x ?y,
    H2 : OrdersEx.String_as_OT.lt ?y ?x |- _ =>
      exact (string_lt_irrefl (string_lt_trans H1 H2))
  | H1 : OrdersEx.String_as_OT.lt ?x ?y,
    H2 : OrdersEx.String_as_OT.lt ?y ?z,
    H3 : OrdersEx.String_as_OT.lt ?z ?x |- _ =>
      exact (string_lt_irrefl (string_lt_trans (string_lt_trans H1 H2) H3))
  end.

Lemma codeUnitCompare_antisym :
  forall x y, Z.sgn (codeUnitCompare y x) = (- Z.sgn (codeUnitCompare x y))%Z.
Proof.
  intros x y. unfold codeUnitCompare.
  destruct (OrdersEx.String_as_OT.compare_spec x y) as [Heq|Hlt|Hgt];
    destruct (OrdersEx.String_as_OT.compare_spec y x) as [Heq'|Hlt'|Hgt'];
    unfold OrdersEx.String_as_OT.eq in *; subst; try reflexivity;
    string_order_absurd.
Qed.

Lemma codeUnitCompare_trans :
  forall x y z,
    (codeUnitCompare x y <= 0 -> codeUnitCompare y z <= 0 ->
     codeUnitCompare x z <= 0)%Z.
Proof.
  intros x y z. unfold codeUnitCompare.
  destruct (OrdersEx.String_as_OT.compare_spec x y) as [Hxy|Hxy|Hxy];
    destruct (OrdersEx.String_as_OT.compare_spec y z) as [Hyz|Hyz|Hyz];
    destruct (OrdersEx.String_as_OT.compare_spec x z) as [Hxz|Hxz|Hxz];
    unfold OrdersEx.String_as_OT.eq in *; subst; intros; try lia;
    string_order_absurd.
Qed.

Lemma aggregateResults_groups_by_raw_owner_witness :
  let results :=
    aggregateResults codeUnitCompare sampleRepositories sampleMemberships in
  let r := {| ur_username := "aaron";
              ur_repositories := [repoOf "aaron" "y"];
              ur_memberships := [] |} in
  In r results
  /\ ur_repositories r
     = filter (fun repo => String.eqb (sr_owner repo) "aaron") sampleRepositories
  /\ ur_memberships r = [].
Proof.
  intros results r.
  assert (Hin : In r results) by (vm_compute; tauto).
  pose proof (aggregateResults_groups_by_raw_owner codeUnitCompare
                sampleRepositories sampleMemberships) as (_ & _ & Hrepos & Hnone).
  split; [exact Hin|split].
  - exact (Hrepos r Hin).
  - exact (Hnone r Hin eq_refl).
Defined.

Lemma aggregateResults_order_witness :
  map ur_username
    (aggregateResults codeUnitCompare sampleRepositories sampleMemberships)
  = ["alice"; "bob"; "aaron"].
Proof.
  refine (proj2 (@aggregateResults_order codeUnitCompare
                   codeUnitCompare_antisym codeUnitCompare_trans
                   sampleRepositories sampleMemberships)
            "bob" "aaron" "alice" _ eq_refl eq_refl eq_refl eq_refl).
  symmetry. exact (Permutation_cons_append ["aaron"; "alice"] "bob").
Defined.

(** ** MembershipEngine: checkUserMemberships *)

Example scenario_outside_collaborator :
  checkUserMemberships asciiToLowerCase acmeApi acmeWithMallory
    ["Mallory"; "mallory"; "Mallory"] (inOrderSchedule 1 1)
  = Some [("Mallory",
           {| um_username := "Mallory";
              um_organizations := [("acme", outside_collaborator)] |})].
Proof. reflexivity. Qed.

Example scenario_pending :
  checkUserMemberships asciiToLowerCase allMembersApi twoOrganizations
    ["mallory"] [(0, 1)]%nat
  = None.
Proof. reflexivity. Qed.

(** *** Lists *)

Lemma find_app :
  forall (A : Type) (P : A -> bool) (l1 l2 : list A),
    find P (l1 ++ l2)
    = match find P l1 with
      | Some y => Some y
      | None => find P l2
      end.
Proof.
  intros A P l1 l2. induction l1 as [|x rest IH]; simpl; [reflexivity|].
  now destruct (P x).
Qed.

Lemma map_injective_on :
  forall (A B : Type) (f : A -> B) (l : list A) (x y : A),
    NoDup (map f l) -> In x l -> In y l -> f x = f y -> x = y.
Proof.
  intros A B f l x y. induction l as [|z rest IH]; simpl; intros Hnd Hx Hy Heq.
  - contradiction.
  - inversion Hnd as [|? ? Hnotin Hrest]; subst.
    destruct Hx as [->|Hx], Hy as [->|Hy]; auto.
    + exfalso. apply Hnotin. rewrite Heq. now apply in_map.
    + exfalso. apply Hnotin. rewrite <- Heq. now apply in_map.
Qed.

Lemma NoDup_map_incl :
  forall (A B : Type) (f : A -> B) (l w : list A),
    NoDup l -> incl l w -> NoDup (map f w) -> NoDup (map f l).
Proof.
  intros A B f l w Hnd Hincl Hw.
  induction Hnd as [|x rest Hnotin Hrest IH]; simpl; constructor.
  - intros Hin. apply in_map_iff in Hin as (y & Heq & Hy).
    apply Hnotin.
    assert (y = x) as <-; [|assumption].
    apply (map_injective_on f w); auto.
    + apply Hincl. now right.
    + apply Hincl. now left.
  - apply IH. intros y Hy. apply Hincl. now right.
Qed.

Lemma nth_error_replace_nth_same :
  forall (A : Type) (l : list A) (i : nat) (x y : A),
    nth_error l i = Some y -> nth_error (replace_nth i x l) i = Some x.
Proof.
  intros A l. induction l as [|z rest IH]; intros [|i] x y Hnth;
    simpl in *; try discriminate; eauto.
Qed.

Lemma nth_error_replace_nth_other :
  forall (A : Type) (l : list A) (i i' : nat) (x : A),
    i' <> i -> nth_error (replace_nth i x l) i' = nth_error l i'.
Proof.
  intros A l. induction l as [|z rest IH]; intros [|i] [|i'] x Hne;
    simpl; try reflexivity; try congruence.
  apply IH. congruence.
Qed.

Lemma replace_nth_same :
  forall (A : Type) (l : list A) (i : nat) (x : A),
    nth_error l i = Some x -> replace_nth i x l = l.
Proof.
  intros A l. induction l as [|z rest IH]; intros [|i] x Hnth;
    simpl in *; try discriminate.
  - congruence.
  - f_equal. now apply IH.
Qed.

(** *** Subsequences *)

Lemma Subsequence_nil_l :
  forall (A : Type) (l : list A), Subsequence [] l.
Proof.
  intros A l. induction l; constructor; assumption.
Qed.

Lemma Subsequence_refl :
  forall (A : Type) (l : list A), Subsequence l l.
Proof.
  intros A l. induction l; [constructor|now apply Subsequence_take].
Qed.

Lemma Subsequence_trans :
  forall (A : Type) (l1 l2 l3 : list A),
    Subsequence l1 l2 -> Subsequence l2 l3 -> Subsequence l1 l3.
Proof.
  intros A l1 l2 l3 H12 H23. revert l1 H12.
  induction H23 as [|x l2 l3 H23 IH|x l2 l3 H23 IH]; intros l1 H12.
  - assumption.
  - constructor. now apply IH.
  - inversion H12; subst.
    + apply Subsequence_skip. now apply IH.
    + apply Subsequence_take. now apply IH.
Qed.

Lemma Subsequence_app :
  forall (A : Type) (l1 l2 l3 l4 : list A),
    Subsequence l1 l2 -> Subsequence l3 l4 ->
    Subsequence (l1 ++ l3) (l2 ++ l4).
Proof.
  intros A l1 l2 l3 l4 H12 H34.
  induction H12; simpl.
  - assumption.
  - now apply Subsequence_skip.
  - now apply Subsequence_take.
Qed.

Lemma Subsequence_map :
  forall (A B : Type) (f : A -> B) (l1 l2 : list A),
    Subsequence l1 l2 -> Subsequence (map f l1) (map f l2).
Proof.
  intros A B f l1 l2 H. induction H; simpl.
  - constructor.
  - now apply Subsequence_skip.
  - now apply Subsequence_take.
Qed.

Lemma Subsequence_firstn :
  forall (A : Type) (l : list A) (b j : nat),
    (b <= j)%nat -> Subsequence (firstn b l) (firstn j l).
Proof.
  intros A l. induction l as [|x rest IH]; intros b j Hle.
  - rewrite !firstn_nil. constructor.
  - destruct b as [|b], j as [|j]; simpl; try lia.
    + constructor.
    + apply Subsequence_nil_l.
    + apply Subsequence_take. apply IH. lia.
Qed.

Lemma Subsequence_firstn_all :
  forall (A : Type) (l : list A) (b : nat), Subsequence (firstn b l) l.
Proof.
  intros A l b.
  destruct (Nat.le_gt_cases b (List.length l)) as [Hle|Hgt].
  - rewrite <- (firstn_all l) at 2. now apply Subsequence_firstn.
  - rewrite firstn_all2 by lia. apply Subsequence_refl.
Qed.

Lemma firstn_succ_nth :
  forall (A : Type) (l : list A) (j : nat) (x : A),
    nth_error l j = Some x -> firstn (S j) l = firstn j l ++ [x].
Proof.
  intros A l. induction l as [|z rest IH]; intros [|j] x Hnth;
    simpl in *; try discriminate.
  - congruence.
  - f_equal. now apply IH.
Qed.

(** *** The two deduplications *)

Lemma fold_add_in :
  forall l s x,
    In x (fold_left (fun s x => JSSet.add x s) l s) <-> In x s \/ In x l.
Proof.
  induction l as [|y rest IH]; intros s x; simpl.
  - tauto.
  - rewrite IH, JSSetFacts.in_add. intuition.
Qed.

Lemma fold_add_find :
  forall (P : string -> bool) l s,
    find P (fold_left (fun s x => JSSet.add x s) l s)
    = match find P s with
      | Some y => Some y
      | None => find P l
      end.
Proof.
  intros P. induction l as [|x rest IH]; intros s; simpl.
  - now destruct (find P s).
  - rewrite IH. unfold JSSet.add.
    destruct (JSSet.has x s) eqn:Hhas.
    + destruct (find P s) eqn:Hfind; [reflexivity|].
      apply JSSetFacts.has_true in Hhas.
      now rewrite (find_none _ _ Hfind _ Hhas).
    + rewrite find_app. simpl.
      destruct (find P s); [reflexivity|].
      now destruct (P x).
Qed.

Lemma of_list_in :
  forall l x, In x (JSSet.of_list l) <-> In x l.
Proof.
  intros l x. unfold JSSet.of_list. rewrite fold_add_in. simpl. tauto.
Qed.

Lemma of_list_find :
  forall (P : string -> bool) l, find P (JSSet.of_list l) = find P l.
Proof.
  intros P l. unfold JSSet.of_list. now rewrite fold_add_find.
Qed.

Section EngineProperties.

Variable toLowerCase : string -> string.
Variable octokit : Octokit.
Variable organizations : list OrganizationInfo.

Lemma startedUsernames_spec :
  forall uniqueUsernames userCache k,
    In k (startedUsernames toLowerCase uniqueUsernames userCache) ->
    In k uniqueUsernames
    /\ ~ In (toLowerCase k) userCache
    /\ find (fun u => String.eqb (toLowerCase u) (toLowerCase k))
         uniqueUsernames
       = Some k.
Proof.
  induction uniqueUsernames as [|u rest IH]; intros userCache k Hin;
    simpl in *; [contradiction|].
  destruct (JSSet.has (toLowerCase u) userCache) eqn:Hhas.
  - destruct (IH _ _ Hin) as (Hrest & Hfresh & Hfind).
    apply JSSetFacts.has_true in Hhas.
    repeat split; auto.
    destruct (String.eqb_spec (toLowerCase u) (toLowerCase k)) as [Heq|_];
      [|assumption].
    exfalso. apply Hfresh. now rewrite <- Heq.
  - apply JSSetFacts.has_false in Hhas.
    destruct Hin as [->|Hin].
    + repeat split; auto. now rewrite String.eqb_refl.
    + destruct (IH _ _ Hin) as (Hrest & Hfresh & Hfind).
      rewrite JSSetFacts.in_add in Hfresh.
      repeat split; auto.
      destruct (String.eqb_spec (toLowerCase u) (toLowerCase k)) as [Heq|_];
        [|assumption].
      exfalso. apply Hfresh. now left.
Qed.

Lemma startedUsernames_NoDup :
  forall uniqueUsernames userCache,
    NoDup (map toLowerCase
             (startedUsernames toLowerCase uniqueUsernames userCache)).
Proof.
  induction uniqueUsernames as [|u rest IH]; intros userCache; simpl.
  - constructor.
  - destruct (JSSet.has (toLowerCase u) userCache); [apply IH|].
    simpl. constructor; [|apply IH].
    intros Hin. apply in_map_iff in Hin as (k & Heq & Hk).
    apply startedUsernames_spec in Hk as (_ & Hfresh & _).
    apply Hfresh. rewrite Heq. apply JSSetFacts.in_add. now left.
Qed.

(** Every lower-cased input name is the lower case of a started one. *)
Lemma startedUsernames_covers :
  forall uniqueUsernames userCache u,
    In u uniqueUsernames ->
    In (toLowerCase u) userCache
    \/ In (toLowerCase u)
         (map toLowerCase
            (startedUsernames toLowerCase uniqueUsernames userCache)).
Proof.
  induction uniqueUsernames as [|x rest IH]; intros userCache u Hin;
    simpl in *; [contradiction|].
  destruct (JSSet.has (toLowerCase x) userCache) eqn:Hhas.
  - destruct Hin as [->|Hin]; [|now apply IH].
    left. now apply JSSetFacts.has_true.
  - destruct Hin as [->|Hin]; [right; now left|].
    destruct (IH (JSSet.add (toLowerCase x) userCache) u Hin) as [Hc|Hs].
    + apply JSSetFacts.in_add in Hc as [Heq|Hc]; [|now left].
      right. left. now symmetry.
    + right. now right.
Qed.

Lemma worklist_spec :
  forall usernames k,
    In k (worklist toLowerCase usernames) ->
    In k usernames
    /\ find (fun u => String.eqb (toLowerCase u) (toLowerCase k)) usernames
       = Some k.
Proof.
  intros usernames k Hin.
  apply startedUsernames_spec in Hin as (Huniq & _ & Hfind).
  rewrite of_list_in in Huniq. rewrite of_list_find in Hfind. auto.
Qed.

(** *** One user's task *)

Lemma settleTask_username :
  forall task j,
    um_username (ut_membership (settleTask toLowerCase octokit organizations task j))
    = um_username (ut_membership task).
Proof.
  intros task j. unfold settleTask.
  destruct (nth_error organizations j) as [o|]; [|reflexivity].
  destruct (existsb (Nat.eqb j) (ut_pending task)); [|reflexivity].
  simpl. unfold orgCallback.
  now destruct (negb (MembershipType_eqb _ none)).
Qed.

Lemma fold_settleTask_username :
  forall events task,
    um_username
      (ut_membership
         (fold_left (settleTask toLowerCase octokit organizations) events task))
    = um_username (ut_membership task).
Proof.
  induction events as [|j rest IH]; intros task; simpl; [reflexivity|].
  now rewrite IH, settleTask_username.
Qed.

Lemma orgCallback_relationshipsOnly :
  forall org userMembership,
    In org organizations ->
    relationshipsOnly toLowerCase octokit organizations userMembership ->
    relationshipsOnly toLowerCase octokit organizations (orgCallback toLowerCase octokit org userMembership).
Proof.
  intros o um Horg [Hentries Hnd]. unfold orgCallback.
  destruct (checkUserMembershipInOrg toLowerCase octokit o (um_username um))
    eqn:Hcheck; simpl; try (split; assumption).
  all: split; simpl; [|now apply JSMapFacts.NoDup_keys_set].
  all: intros o' ty Hin; apply JSMapFacts.in_set in Hin as [[-> ->]|Hin];
    [|now apply Hentries].
  all: split; [discriminate|]; exists o; auto.
Qed.

Lemma settleTask_relationshipsOnly :
  forall task j,
    relationshipsOnly toLowerCase octokit organizations (ut_membership task) ->
    relationshipsOnly toLowerCase octokit organizations
      (ut_membership (settleTask toLowerCase octokit organizations task j)).
Proof.
  intros task j Hrel. unfold settleTask.
  destruct (nth_error organizations j) as [o|] eqn:Hnth; [|assumption].
  destruct (existsb (Nat.eqb j) (ut_pending task)); [|assumption].
  simpl. apply orgCallback_relationshipsOnly; [|assumption].
  eapply nth_error_In; eassumption.
Qed.

Lemma fold_settleTask_relationshipsOnly :
  forall events task,
    relationshipsOnly toLowerCase octokit organizations (ut_membership task) ->
    relationshipsOnly toLowerCase octokit organizations
      (ut_membership
         (fold_left (settleTask toLowerCase octokit organizations) events task)).
Proof.
  induction events as [|j rest IH]; intros task Hrel; simpl; [assumption|].
  apply IH. now apply settleTask_relationshipsOnly.
Qed.

(** *** The engine *)

Lemma isEmpty_true :
  forall (A : Type) (l : list A), isEmpty l = true <-> l = [].
Proof.
  intros A [|x rest]; simpl; split; congruence.
Qed.

(** An event either does nothing or settles a check in flight. *)
Lemma settle_cases :
  forall engine i j,
    settle toLowerCase octokit organizations engine (i, j) = engine
    \/ exists task,
        nth_error (tasks engine) i = Some task
        /\ existsb (Nat.eqb j) (ut_pending task) = true
        /\ settle toLowerCase octokit organizations engine (i, j)
           = {| tasks :=
                  replace_nth i
                    (settleTask toLowerCase octokit organizations task j)
                    (tasks engine);
                userMemberships :=
                  commitWhenSettled
                    (settleTask toLowerCase octokit organizations task j)
                    (userMemberships engine) |}.
Proof.
  intros engine i j. unfold settle, settleTask.
  destruct (nth_error (tasks engine) i) as [task|]; [|now left].
  destruct (nth_error organizations j) as [o|]; [|now left].
  destruct (existsb (Nat.eqb j) (ut_pending task)) eqn:Hflight; [|now left].
  right. exists task.
  split; [reflexivity|split; [exact Hflight|now rewrite Hflight]].
Qed.

Lemma settle_tasks :
  forall engine i j,
    tasks (settle toLowerCase octokit organizations engine (i, j))
    = match nth_error (tasks engine) i with
      | Some task =>
          replace_nth i (settleTask toLowerCase octokit organizations task j)
            (tasks engine)
      | None => tasks engine
      end.
Proof.
  intros engine i j. unfold settle, settleTask.
  destruct (nth_error (tasks engine) i) as [task|] eqn:Htask; [|reflexivity].
  destruct (nth_error organizations j) as [o|].
  - destruct (existsb (Nat.eqb j) (ut_pending task)); [reflexivity|].
    symmetry. now apply replace_nth_same.
  - symmetry. now apply replace_nth_same.
Qed.

(** The task of user [i] after a schedule is its task before, run through
    the events of [i] in schedule order. *)
Lemma run_task :
  forall schedule engine i,
    nth_error
      (tasks (fold_left (settle toLowerCase octokit organizations) schedule
                engine)) i
    = option_map
        (fold_left (settleTask toLowerCase octokit organizations)
           (eventsOf i schedule))
        (nth_error (tasks engine) i).
Proof.
  induction schedule as [|[i0 j0] rest IH]; intros engine i.
  - simpl. now destruct (nth_error (tasks engine) i).
  - cbn [fold_left]. rewrite IH, settle_tasks.
    unfold eventsOf. cbn [filter fst].
    destruct (Nat.eqb_spec i0 i) as [->|Hne].
    + cbn [map snd fold_left].
      destruct (nth_error (tasks engine) i) as [task|] eqn:Htask.
      * now rewrite (nth_error_replace_nth_same _ _ _ Htask).
      * now rewrite Htask.
    + destruct (nth_error (tasks engine) i0) as [task|]; [|reflexivity].
      rewrite nth_error_replace_nth_other by congruence. reflexivity.
Qed.

Lemma in_commitWhenSettled :
  forall task um k v,
    In (k, v) (commitWhenSettled task um) ->
    In (k, v) um
    \/ (ut_pending task = []
        /\ k = um_username (ut_membership task)
        /\ v = ut_membership task).
Proof.
  intros task um k v Hin. unfold commitWhenSettled in Hin.
  destruct (isEmpty (ut_pending task)) eqn:Hdone; [|now left].
  apply isEmpty_true in Hdone.
  apply JSMapFacts.in_set in Hin as [[-> ->]|Hin]; auto.
Qed.

Lemma NoDup_commitWhenSettled :
  forall task um,
    NoDup (JSMap.keys um) -> NoDup (JSMap.keys (commitWhenSettled task um)).
Proof.
  intros task um Hnd. unfold commitWhenSettled.
  destruct (isEmpty (ut_pending task)); [|assumption].
  now apply JSMapFacts.NoDup_keys_set.
Qed.

Lemma in_fold_commit :
  forall ts um k v,
    In (k, v) (fold_left (fun um task => commitWhenSettled task um) ts um) ->
    In (k, v) um
    \/ exists task,
        In task ts /\ ut_pending task = []
        /\ k = um_username (ut_membership task)
        /\ v = ut_membership task.
Proof.
  induction ts as [|task rest IH]; intros um k v Hin; simpl in *.
  - now left.
  - apply IH in Hin as [Hin|(task' & Hin' & Hrest)].
    + apply in_commitWhenSettled in Hin as [Hin|Hnew]; [now left|].
      right. exists task. auto.
    + right. exists task'. auto.
Qed.

Lemma NoDup_fold_commit :
  forall ts um,
    NoDup (JSMap.keys um) ->
    NoDup (JSMap.keys
             (fold_left (fun um task => commitWhenSettled task um) ts um)).
Proof.
  induction ts as [|task rest IH]; intros um Hnd; simpl; [assumption|].
  apply IH. now apply NoDup_commitWhenSettled.
Qed.

Lemma committed_start :
  forall started, committed (startEngine organizations started).
Proof.
  intros started k v Hin. unfold startEngine in *. simpl in *.
  apply in_fold_commit in Hin as [[]|(task & Hin & Hdone & -> & ->)].
  apply In_nth_error in Hin as [i Hnth].
  exists i, task. auto.
Qed.

Lemma committed_settle :
  forall engine event,
    committed engine ->
    committed (settle toLowerCase octokit organizations engine event).
Proof.
  intros engine [i j] Hinv.
  destruct (settle_cases engine i j) as [->|(task & Htask & Hflight & ->)];
    [assumption|].
  intros k v Hin. simpl in *.
  apply in_commitWhenSettled in Hin as [Hin|(Hdone & -> & ->)].
  - destruct (Hinv _ _ Hin) as (i1 & task1 & Hnth1 & Hv & Hk & Hdone1).
    exists i1, task1. repeat split; auto.
    rewrite nth_error_replace_nth_other; [assumption|].
    intros ->. rewrite Htask in Hnth1. inversion Hnth1; subst task1.
    rewrite Hdone1 in Hflight. discriminate.
  - exists i, (settleTask toLowerCase octokit organizations task j).
    repeat split; auto.
    eapply nth_error_replace_nth_same; eassumption.
Qed.

Lemma committed_run :
  forall schedule engine,
    committed engine ->
    committed (fold_left (settle toLowerCase octokit organizations) schedule
                 engine).
Proof.
  induction schedule as [|event rest IH]; intros engine Hinv; simpl.
  - assumption.
  - apply IH. now apply committed_settle.
Qed.

Lemma NoDup_settle :
  forall engine event,
    NoDup (JSMap.keys (userMemberships engine)) ->
    NoDup (JSMap.keys
             (userMemberships
                (settle toLowerCase octokit organizations engine event))).
Proof.
  intros engine [i j] Hnd.
  destruct (settle_cases engine i j) as [->|(task & _ & _ & ->)];
    [assumption|].
  simpl. now apply NoDup_commitWhenSettled.
Qed.

Lemma NoDup_run :
  forall schedule engine,
    NoDup (JSMap.keys (userMemberships engine)) ->
    NoDup (JSMap.keys
             (userMemberships
                (fold_left (settle toLowerCase octokit organizations) schedule
                   engine))).
Proof.
  induction schedule as [|event rest IH]; intros engine Hnd; simpl.
  - assumption.
  - apply IH. now apply NoDup_settle.
Qed.

(** An entry of the result is the membership object of a started user,
    built by that user's callbacks in the order its checks settled. *)
Lemma checkUserMemberships_entry :
  forall usernames schedule m k v,
    checkUserMemberships toLowerCase octokit organizations usernames schedule
    = Some m ->
    In (k, v) m ->
    exists i,
      nth_error (worklist toLowerCase usernames) i = Some k
      /\ v = ut_membership
               (fold_left (settleTask toLowerCase octokit organizations)
                  (eventsOf i schedule) (initialTask organizations k)).
Proof.
  intros usernames schedule m k v Hrun Hin.
  unfold checkUserMemberships in Hrun.
  fold (worklist toLowerCase usernames) in Hrun.
  destruct (forallb _ _); [|discriminate].
  inversion Hrun as [Hm]; clear Hrun. rewrite <- Hm in Hin.
  apply committed_run in Hin; [|apply committed_start].
  destruct Hin as (i & task & Hnth & Hv & Hk & _).
  rewrite run_task in Hnth. unfold startEngine in Hnth. simpl in Hnth.
  rewrite nth_error_map in Hnth.
  destruct (nth_error (worklist toLowerCase usernames) i) as [k0|] eqn:Hk0;
    [|discriminate].
  simpl in Hnth. inversion Hnth as [Htask]; clear Hnth.
  assert (k0 = k) as ->.
  { rewrite <- Hk, <- Hv, <- Htask.
    now rewrite fold_settleTask_username. }
  exists i. split; [assumption|]. now rewrite <- Hv, <- Htask.
Qed.

Lemma checkUserMemberships_NoDup :
  forall usernames schedule m,
    checkUserMemberships toLowerCase octokit organizations usernames schedule
    = Some m ->
    NoDup (JSMap.keys m).
Proof.
  intros usernames schedule m Hrun. unfold checkUserMemberships in Hrun.
  destruct (forallb _ _); [|discriminate].
  inversion Hrun as [Hm]; clear Hrun.
  apply NoDup_run. unfold startEngine. simpl.
  apply NoDup_fold_commit. constructor.
Qed.

(** When the checks of a user settle in the order the organizations were
    iterated, the keys of its map follow that order. *)
Lemma settleTask_in_order :
  forall task j b,
    (b <= j)%nat ->
    Subsequence (JSMap.keys (um_organizations (ut_membership task)))
      (map login (firstn b organizations)) ->
    Subsequence
      (JSMap.keys
         (um_organizations
            (ut_membership
               (settleTask toLowerCase octokit organizations task j))))
      (map login (firstn (S j) organizations)).
Proof.
  intros task j b Hle Hsub.
  assert (Hwiden :
    Subsequence (JSMap.keys (um_organizations (ut_membership task)))
      (map login (firstn j organizations))).
  { eapply Subsequence_trans; [exact Hsub|].
    apply Subsequence_map. now apply Subsequence_firstn. }
  assert (Hkeep :
    Subsequence (JSMap.keys (um_organizations (ut_membership task)))
      (map login (firstn (S j) organizations))).
  { eapply Subsequence_trans; [exact Hwiden|].
    apply Subsequence_map. apply Subsequence_firstn. lia. }
  unfold settleTask.
  destruct (nth_error organizations j) as [o|] eqn:Hnth; [|exact Hkeep].
  destruct (existsb (Nat.eqb j) (ut_pending task)); [|exact Hkeep].
  cbn [ut_membership]. unfold orgCallback.
  destruct (negb (MembershipType_eqb _ none)); [|exact Hkeep].
  cbn [um_organizations]. rewrite JSMapFacts.keys_set.
  destruct (JSSet.has (login o) _); [exact Hkeep|].
  rewrite (firstn_succ_nth _ _ Hnth), map_app.
  apply Subsequence_app; [exact Hwiden|apply Subsequence_refl].
Qed.

Lemma fold_settleTask_in_order :
  forall events task b,
    StronglySorted lt events ->
    (forall j, In j events -> (b <= j)%nat) ->
    Subsequence (JSMap.keys (um_organizations (ut_membership task)))
      (map login (firstn b organizations)) ->
    Subsequence
      (JSMap.keys
         (um_organizations
            (ut_membership
               (fold_left (settleTask toLowerCase octokit organizations)
                  events task))))
      (map login organizations).
Proof.
  induction events as [|j rest IH]; intros task b Hsorted Hbound Hsub; simpl.
  - eapply Subsequence_trans; [exact Hsub|].
    apply Subsequence_map. apply Subsequence_firstn_all.
  - inversion Hsorted as [|? ? Hrest Hall]; subst.
    apply (IH _ (S j)); [assumption| |].
    + intros j' Hin. rewrite Forall_forall in Hall.
      specialize (Hall _ Hin). lia.
    + apply settleTask_in_order with (b := b); [|assumption].
      apply Hbound. now left.
Qed.

(** *** Completion *)

(** When every check in flight has its event in the schedule, no check is
    pending at the end. *)
Lemma run_settles_all :
  forall schedule engine,
    (forall i task j,
        nth_error (tasks engine) i = Some task ->
        In j (ut_pending task) ->
        (j < List.length organizations)%nat /\ In (i, j) schedule) ->
    forall task,
      In task
        (tasks (fold_left (settle toLowerCase octokit organizations) schedule
                  engine)) ->
      ut_pending task = [].
Proof.
  induction schedule as [|[i0 j0] rest IH]; intros engine Hcover task Hin.
  - simpl in Hin. apply In_nth_error in Hin as [i Hnth].
    destruct (ut_pending task) as [|j pending] eqn:Hpending; [reflexivity|].
    destruct (Hcover i task j Hnth) as [_ []]. rewrite Hpending. now left.
  - cbn [fold_left] in Hin. revert task Hin. apply IH.
    intros i task j Hnth Hj. unfold settle in Hnth.
    destruct (nth_error (tasks engine) i0) as [task0|] eqn:Htask0.
    + destruct (nth_error organizations j0) as [o|] eqn:Horg.
      * destruct (existsb (Nat.eqb j0) (ut_pending task0)) eqn:Hflight.
        -- cbn [tasks] in Hnth.
           destruct (Nat.eq_dec i i0) as [->|Hne].
           ++ rewrite (nth_error_replace_nth_same _ _ _ Htask0) in Hnth.
              inversion Hnth; subst task. cbn [ut_pending] in Hj.
              apply filter_In in Hj as [Hj Hneq].
              apply negb_true_iff, Nat.eqb_neq in Hneq.
              destruct (Hcover _ _ _ Htask0 Hj) as [Hlt [Heq|Hrest]].
              ** inversion Heq. congruence.
              ** auto.
           ++ rewrite nth_error_replace_nth_other in Hnth by assumption.
              destruct (Hcover _ _ _ Hnth Hj) as [Hlt [Heq|Hrest]].
              ** inversion Heq. congruence.
              ** auto.
        -- destruct (Hcover _ _ _ Hnth Hj) as [Hlt [Heq|Hrest]]; [|auto].
           inversion Heq; subst i j. exfalso.
           rewrite Htask0 in Hnth. inversion Hnth; subst task0.
           assert (Htrue : existsb (Nat.eqb j0) (ut_pending task) = true).
           { apply existsb_exists. exists j0. split; [assumption|].
             apply Nat.eqb_refl. }
           congruence.
      * destruct (Hcover _ _ _ Hnth Hj) as [Hlt [Heq|Hrest]]; [|auto].
        inversion Heq; subst i j. exfalso.
        apply nth_error_None in Horg. lia.
    + destruct (Hcover _ _ _ Hnth Hj) as [Hlt [Heq|Hrest]]; [|auto].
      inversion Heq; subst i j. congruence.
Qed.

(** [checkUserMemberships] fulfils when the schedule settles every check
    that was started. *)
Lemma checkUserMemberships_returns :
  forall usernames schedule,
    (forall i j,
        (i < List.length (worklist toLowerCase usernames))%nat ->
        (j < List.length organizations)%nat ->
        In (i, j) schedule) ->
    exists m,
      checkUserMemberships toLowerCase octokit organizations usernames schedule
      = Some m.
Proof.
  intros usernames schedule Hcover. unfold checkUserMemberships.
  fold (worklist toLowerCase usernames).
  match goal with
  | |- exists m, (if ?b then _ else _) = _ => assert (Hall : b = true)
  end.
  { apply forallb_forall. intros task Hin. apply isEmpty_true.
    revert task Hin. apply run_settles_all.
    intros i task j Hnth Hj. unfold startEngine in Hnth. cbn [tasks] in Hnth.
    assert (Hi : (i < List.length (worklist toLowerCase usernames))%nat).
    { rewrite <- (length_map (initialTask organizations)).
      apply nth_error_Some. congruence. }
    rewrite nth_error_map in Hnth.
    destruct (nth_error (worklist toLowerCase usernames) i); [|discriminate].
    inversion Hnth; subst task. cbn [initialTask ut_pending] in Hj.
    apply in_seq in Hj. split; [lia|]. apply Hcover; [assumption|lia]. }
  rewrite Hall. eauto.
Qed.

Lemma in_inOrderSchedule :
  forall users orgs i j,
    In (i, j) (inOrderSchedule users orgs)
    <-> (i < users)%nat /\ (j < orgs)%nat.
Proof.
  intros users orgs i j. unfold inOrderSchedule.
  rewrite in_flat_map. split.
  - intros (i' & Hi & Hin). apply in_map_iff in Hin as (j' & Heq & Hj).
    inversion Heq; subst. apply in_seq in Hi, Hj. lia.
  - intros [Hi Hj]. exists i. split; [apply in_seq; lia|].
    apply in_map_iff. exists j. split; [reflexivity|apply in_seq; lia].
Qed.

Lemma StronglySorted_seq :
  forall len start, StronglySorted lt (seq start len).
Proof.
  induction len as [|len IH]; intros start; simpl; constructor.
  - apply IH.
  - apply Forall_forall. intros j Hj. apply in_seq in Hj. lia.
Qed.

Lemma eventsOf_app :
  forall i s1 s2, eventsOf i (s1 ++ s2) = eventsOf i s1 ++ eventsOf i s2.
Proof.
  intros i s1 s2. unfold eventsOf. now rewrite filter_app, map_app.
Qed.

Lemma eventsOf_row :
  forall i i' js,
    eventsOf i (map (fun j => (i', j)) js)
    = if Nat.eqb i' i then js else [].
Proof.
  intros i i' js. unfold eventsOf.
  induction js as [|j rest IH]; simpl.
  - now destruct (Nat.eqb i' i).
  - destruct (Nat.eqb i' i); simpl in *; [now rewrite IH|assumption].
Qed.

Lemma eventsOf_inOrderSchedule :
  forall orgs i len start,
    eventsOf i
      (flat_map (fun i' => map (fun j => (i', j)) (seq 0 orgs)) (seq start len))
    = if (start <=? i)%nat && (i <? start + len)%nat then seq 0 orgs else [].
Proof.
  intros orgs i. induction len as [|len IH]; intros start; simpl.
  - destruct (Nat.leb_spec start i), (Nat.ltb_spec i (start + 0));
      simpl; try reflexivity; lia.
  - rewrite eventsOf_app, eventsOf_row, IH.
    destruct (Nat.eqb_spec start i) as [->|Hne].
    + destruct (Nat.leb_spec (S i) i); [lia|]. simpl.
      destruct (Nat.leb_spec i i), (Nat.ltb_spec i (i + S len));
        simpl; try lia. now rewrite app_nil_r.
    + destruct (Nat.leb_spec (S start) i), (Nat.leb_spec start i),
        (Nat.ltb_spec i (S start + len)), (Nat.ltb_spec i (start + S len));
        simpl; try reflexivity; lia.
Qed.

Lemma inOrderSchedule_sorted :
  forall users orgs i,
    StronglySorted lt (eventsOf i (inOrderSchedule users orgs)).
Proof.
  intros users orgs i. unfold inOrderSchedule.
  rewrite eventsOf_inOrderSchedule.
  destruct (_ && _); [apply StronglySorted_seq|constructor].
Qed.

Lemma entry_keys_in_order :
  forall usernames schedule m k v,
    checkUserMemberships toLowerCase octokit organizations usernames schedule
    = Some m ->
    In (k, v) m ->
    (forall i, StronglySorted lt (eventsOf i schedule)) ->
    Subsequence (JSMap.keys (um_organizations v)) (map login organizations).
Proof.
  intros usernames schedule m k v Hrun Hin Hsorted.
  destruct (@checkUserMemberships_entry usernames schedule m k v Hrun Hin)
    as (i & _ & ->).
  apply fold_settleTask_in_order with (b := 0%nat).
  - apply Hsorted.
  - intros j _. lia.
  - simpl. constructor.
Qed.

(** *** Every input name is represented *)

Lemma in_replace_nth :
  forall (A : Type) (l : list A) (i : nat) (x y : A),
    In x (replace_nth i y l) -> x = y \/ In x l.
Proof.
  intros A l. induction l as [|z rest IH]; intros [|i] x y Hin;
    simpl in *; try tauto.
  - destruct Hin as [<-|Hin]; auto.
  - destruct Hin as [<-|Hin]; auto.
    destruct (IH _ _ _ Hin); auto.
Qed.

Lemma keys_commitWhenSettled :
  forall task um k,
    In k (JSMap.keys um) -> In k (JSMap.keys (commitWhenSettled task um)).
Proof.
  intros task um k Hin. unfold commitWhenSettled.
  destruct (isEmpty (ut_pending task)); [|assumption].
  apply JSMapFacts.in_keys_set. now right.
Qed.

Lemma key_commitWhenSettled :
  forall task um,
    ut_pending task = [] ->
    In (um_username (ut_membership task))
      (JSMap.keys (commitWhenSettled task um)).
Proof.
  intros task um Hdone. unfold commitWhenSettled. rewrite Hdone. simpl.
  apply JSMapFacts.in_keys_set. now left.
Qed.

Lemma keys_fold_commit :
  forall ts um k,
    In k (JSMap.keys um) ->
    In k (JSMap.keys
            (fold_left (fun um task => commitWhenSettled task um) ts um)).
Proof.
  induction ts as [|task rest IH]; intros um k Hin; simpl; [assumption|].
  apply IH. now apply keys_commitWhenSettled.
Qed.

Lemma settled_committed_start :
  forall ts um task,
    In task ts ->
    ut_pending task = [] ->
    In (um_username (ut_membership task))
      (JSMap.keys
         (fold_left (fun um task => commitWhenSettled task um) ts um)).
Proof.
  induction ts as [|task0 rest IH]; intros um task Hin Hdone; simpl in *.
  - contradiction.
  - destruct Hin as [->|Hin]; [|now apply IH].
    apply keys_fold_commit. now apply key_commitWhenSettled.
Qed.

Lemma settled_committed_settle :
  forall engine event,
    (forall task,
        In task (tasks engine) -> ut_pending task = [] ->
        In (um_username (ut_membership task))
          (JSMap.keys (userMemberships engine))) ->
    forall task,
      In task (tasks (settle toLowerCase octokit organizations engine event)) ->
      ut_pending task = [] ->
      In (um_username (ut_membership task))
        (JSMap.keys
           (userMemberships
              (settle toLowerCase octokit organizations engine event))).
Proof.
  intros engine [i j] Hinv.
  destruct (settle_cases engine i j) as [->|(task0 & _ & _ & ->)];
    [assumption|].
  intros task Hin Hdone. simpl in *.
  apply in_replace_nth in Hin as [->|Hin].
  - now apply key_commitWhenSettled.
  - apply keys_commitWhenSettled. now apply Hinv.
Qed.

Lemma settled_committed_run :
  forall schedule engine,
    (forall task,
        In task (tasks engine) -> ut_pending task = [] ->
        In (um_username (ut_membership task))
          (JSMap.keys (userMemberships engine))) ->
    forall task,
      In task
        (tasks (fold_left (settle toLowerCase octokit organizations) schedule
                  engine)) ->
      ut_pending task = [] ->
      In (um_username (ut_membership task))
        (JSMap.keys
           (userMemberships
              (fold_left (settle toLowerCase octokit organizations) schedule
                 engine))).
Proof.
  induction schedule as [|event rest IH]; intros engine Hinv; simpl.
  - assumption.
  - apply IH. now apply settled_committed_settle.
Qed.

(** Every username of the input has an entry, under the first casing. *)
Lemma checkUserMemberships_covers_input :
  forall usernames schedule m u,
    checkUserMemberships toLowerCase octokit organizations usernames schedule
    = Some m ->
    In u usernames ->
    exists k, In k (JSMap.keys m) /\ toLowerCase k = toLowerCase u.
Proof.
  intros usernames schedule m u Hrun Hu.
  unfold checkUserMemberships in Hrun.
  fold (worklist toLowerCase usernames) in Hrun.
  destruct (forallb _ _) eqn:Hall; [|discriminate].
  inversion Hrun as [Hm]; clear Hrun.
  apply of_list_in in Hu.
  destruct (startedUsernames_covers _ JSSet.empty _ Hu) as [[]|Hstarted].
  apply in_map_iff in Hstarted as (k & Hlower & Hk).
  fold (worklist toLowerCase usernames) in Hk.
  exists k. split; [|assumption].
  apply In_nth_error in Hk as [i Hnth].
  pose proof (run_task schedule
                (startEngine organizations (worklist toLowerCase usernames)) i)
    as Htask.
  unfold startEngine at 2 in Htask. cbn [tasks] in Htask.
  rewrite nth_error_map, Hnth in Htask. cbn [option_map] in Htask.
  rewrite <- (fold_settleTask_username (eventsOf i schedule)
                (initialTask organizations k)) at 1.
  apply settled_committed_run.
  - intros task Hin Hdone. unfold startEngine. simpl.
    now apply settled_committed_start.
  - eapply nth_error_In. exact Htask.
  - rewrite forallb_forall in Hall. apply isEmpty_true. apply Hall.
    eapply nth_error_In. exact Htask.
Qed.

Variable usernames : list string.
Variable schedule : list (nat * nat).

(** C4: the map [checkUserMemberships] fulfils with has no two keys with the
    same lower case; each key is a username of the input, the first of the
    input with that lower case, and is the [username] of its entry. So no
    entry stands for a name absent from the input, and names that differ
    only in case share the one entry of the casing seen first. *)
Theorem checkUserMemberships_one_entry_per_user :
  forall m : JSMap.t UserMembership,
    checkUserMemberships toLowerCase octokit organizations usernames schedule
    = Some m ->
    NoDup (map toLowerCase (JSMap.keys m))
    /\ (forall k v,
        In (k, v) m ->
        In k usernames
        /\ um_username v = k
        /\ find (fun u => String.eqb (toLowerCase u) (toLowerCase k)) usernames
           = Some k).
Proof.
  intros m Hrun.
  assert (Hstarted :
    forall k v, In (k, v) m ->
                In k (worklist toLowerCase usernames) /\ um_username v = k).
  { intros k v Hin.
    destruct (@checkUserMemberships_entry usernames schedule m k v Hrun Hin) as (i & Hnth & ->).
    split; [eapply nth_error_In; eassumption|].
    now rewrite fold_settleTask_username. }
  split.
  - apply NoDup_map_incl with (w := worklist toLowerCase usernames).
    + eapply checkUserMemberships_NoDup; eassumption.
    + intros k Hin. apply in_map_iff in Hin as ([k' v] & <- & Hin).
      now apply (Hstarted k' v).
    + apply startedUsernames_NoDup.
  - intros k v Hin. destruct (Hstarted k v Hin) as [Hwork Hname].
    destruct (worklist_spec _ _ Hwork) as [Hinput Hfirst]. auto.
Qed.

(** C5, as the code has it: in every entry of the result the organizations
    map holds only [member] and [outside_collaborator] values, never
    [none], under logins of the given organizations, each login once; the
    map is what the user's callbacks built in the order its checks settled,
    and its keys follow the order the organizations were iterated in when
    the checks settled in that order. *)
Theorem organizations_hold_settled_relationships :
  forall (m : JSMap.t UserMembership) (k : string) (v : UserMembership),
    checkUserMemberships toLowerCase octokit organizations usernames schedule
    = Some m ->
    In (k, v) m ->
    (forall o ty,
        In (o, ty) (um_organizations v) ->
        (ty = member \/ ty = outside_collaborator)
        /\ ty <> none
        /\ In o (map login organizations))
    /\ NoDup (JSMap.keys (um_organizations v))
    /\ exists i,
        nth_error (worklist toLowerCase usernames) i = Some k
        /\ v = ut_membership
                 (fold_left (settleTask toLowerCase octokit organizations)
                    (eventsOf i schedule) (initialTask organizations k))
        /\ (StronglySorted lt (eventsOf i schedule) ->
            Subsequence (JSMap.keys (um_organizations v))
              (map login organizations)).
Proof.
  intros m k v Hrun Hin.
  destruct (@checkUserMemberships_entry usernames schedule m k v Hrun Hin) as (i & Hnth & Hv).
  assert (Hrel : relationshipsOnly toLowerCase octokit organizations v).
  { rewrite Hv. apply fold_settleTask_relationshipsOnly.
    split; simpl; [intros o ty []|constructor]. }
  destruct Hrel as [Hentries Hnd].
  split; [|split; [exact Hnd|]].
  - intros o ty Hentry.
    destruct (Hentries _ _ Hentry) as (Hnone & o' & Ho' & Hlogin & _).
    repeat split.
    + destruct ty; auto. congruence.
    + assumption.
    + rewrite <- Hlogin. now apply in_map.
  - exists i. split; [assumption|split; [assumption|]].
    intros Hsorted. rewrite Hv.
    apply fold_settleTask_in_order with (b := 0%nat).
    + assumption.
    + intros j _. lia.
    + simpl. constructor.
Qed.

End EngineProperties.

(** With every check settling in the order it was started the function
    fulfils, and the keys of every organizations map follow the order of
    the organizations. *)
Lemma checkUserMemberships_in_order :
  forall toLowerCase octokit organizations usernames,
    exists m,
      checkUserMemberships toLowerCase octokit organizations usernames
        (inOrderSchedule (List.length (worklist toLowerCase usernames))
           (List.length organizations))
      = Some m
      /\ forall k v,
          In (k, v) m ->
          Subsequence (JSMap.keys (um_organizations v))
            (map login organizations).
Proof.
  intros toLowerCase octokit organizations usernames.
  destruct (@checkUserMemberships_returns toLowerCase octokit organizations
              usernames
              (inOrderSchedule (List.length (worklist toLowerCase usernames))
                 (List.length organizations))) as [m Hrun].
  { intros i j Hi Hj. now apply in_inOrderSchedule. }
  exists m. split; [exact Hrun|].
  intros k v Hin.
  apply (@entry_keys_in_order toLowerCase octokit organizations usernames
           _ m k v Hrun Hin).
  intros i. apply inOrderSchedule_sorted.
Qed.

Lemma checkUserMemberships_one_entry_per_user_witness :
  let m := [("Mallory",
             {| um_username := "Mallory";
                um_organizations := [("acme", outside_collaborator)] |})] in
  NoDup (map asciiToLowerCase (JSMap.keys m))
  /\ (forall k v,
      In (k, v) m ->
      In k ["Mallory"; "mallory"; "Mallory"]
      /\ um_username v = k
      /\ find (fun u => String.eqb (asciiToLowerCase u) (asciiToLowerCase k))
           ["Mallory"; "mallory"; "Mallory"]
         = Some k).
Proof.
  exact (@checkUserMemberships_one_entry_per_user asciiToLowerCase acmeApi
           acmeWithMallory ["Mallory"; "mallory"; "Mallory"]
           (inOrderSchedule 1 1) _ eq_refl).
Defined.

(** C5 as stated fails: with two organizations iterated as acme, beta, a
    user who is a member of both, and the check against beta settling
    before the check against acme, the keys of the user's organizations map
    are beta, acme. *)
Lemma settlement_order_breaks_iteration_order :
  checkUserMemberships asciiToLowerCase allMembersApi twoOrganizations
    ["mallory"] [(0, 1); (0, 0)]%nat
  = Some [("mallory",
           {| um_username := "mallory";
              um_organizations := [("beta", member); ("acme", member)] |})]
  /\ map login twoOrganizations = ["acme"; "beta"]
  /\ ~ Subsequence ["beta"; "acme"] (map login twoOrganizations).
Proof.
  split; [reflexivity|split; [reflexivity|]].
  simpl. intros H.
  repeat match goal with
         | H : Subsequence _ _ |- _ => inversion H; subst; clear H
         end.
Qed.

Lemma organizations_hold_settled_relationships_witness :
  let v := {| um_username := "Mallory";
              um_organizations := [("acme", outside_collaborator)] |} in
  (forall o ty,
      In (o, ty) (um_organizations v) ->
      (ty = member \/ ty = outside_collaborator)
      /\ ty <> none
      /\ In o (map login acmeWithMallory))
  /\ NoDup (JSMap.keys (um_organizations v))
  /\ exists i,
      nth_error
        (worklist asciiToLowerCase ["Mallory"; "mallory"; "Mallory"]) i
      = Some "Mallory"
      /\ v = ut_membership
               (fold_left (settleTask asciiToLowerCase acmeApi acmeWithMallory)
                  (eventsOf i (inOrderSchedule 1 1))
                  (initialTask acmeWithMallory "Mallory"))
      /\ (StronglySorted lt (eventsOf i (inOrderSchedule 1 1)) ->
          Subsequence (JSMap.keys (um_organizations v))
            (map login acmeWithMallory)).
Proof.
  exact (@organizations_hold_settled_relationships asciiToLowerCase acmeApi
           acmeWithMallory ["Mallory"; "mallory"; "Mallory"]
           (inOrderSchedule 1 1) _ "Mallory" _ eq_refl (or_introl eq_refl)).
Defined.

Lemma aggregateResults_deterministic_witness :
  aggregateResults codeUnitCompare sampleRepositories sampleMemberships
  = sampleResults.
Proof.
  destruct (@aggregateResults_deterministic codeUnitCompare
              codeUnitCompare_antisym codeUnitCompare_trans
              sampleRepositories sampleMemberships) as [Hrun Hunique].
  apply Hunique; [exact Hrun|].
  split; [|split].
  - repeat constructor; unfold ordered; vm_compute; discriminate.
  - intros x Hx. vm_compute in Hx |- *. tauto.
  - repeat constructor; vm_compute; reflexivity.
Defined.

(** * Further properties of the code *)

(** ** searchSha1HuludRepositories *)

Lemma fold_pushRepo_app :
  forall items results,
    fold_left pushRepo items results = results ++ searchResultsOf items.
Proof.
  unfold searchResultsOf.
  induction items as [|repo rest IH]; intros results; simpl.
  - now rewrite app_nil_r.
  - rewrite IH, (IH (pushRepo [] repo)). unfold pushRepo.
    destruct (item_owner repo); simpl.
    + now rewrite <- app_assoc.
    + reflexivity.
Qed.

Lemma searchResultsOf_app :
  forall items1 items2,
    searchResultsOf (items1 ++ items2)
    = searchResultsOf items1 ++ searchResultsOf items2.
Proof.
  intros items1 items2. unfold searchResultsOf at 1.
  rewrite fold_left_app. fold (searchResultsOf items1).
  apply fold_pushRepo_app.
Qed.

Lemma searchResultsOf_owned :
  forall items r,
    In r (searchResultsOf items) <->
    exists repo,
      In repo items
      /\ item_owner repo = Some (sr_owner r)
      /\ item_name repo = sr_repo r
      /\ item_html_url repo = sr_url r.
Proof.
  induction items as [|repo rest IH]; intros r.
  - simpl. split; [intros []|intros (? & [] & _)].
  - change (repo :: rest) with ([repo] ++ rest).
    rewrite searchResultsOf_app, in_app_iff, IH.
    unfold searchResultsOf at 1. simpl. unfold pushRepo.
    split.
    + intros [Hhead|(repo' & Hin & Hrest)].
      * destruct (item_owner repo) as [ownerLogin|] eqn:Howner;
          [|contradiction].
        destruct Hhead as [<-|[]]. exists repo. simpl. auto.
      * exists repo'. auto.
    + intros (repo' & [<-|Hin] & Howner & Hname & Hurl).
      * left. rewrite Howner. simpl. left. destruct r; simpl in *. congruence.
      * right. exists repo'. auto.
Qed.

Lemma drainSearch_returns :
  forall pages results,
    rejection pages = None ->
    drainSearch pages results
    = Returned (results ++ searchResultsOf (pageItems pages)).
Proof.
  induction pages as [|data next IH|e]; intros results Hrej; simpl in *.
  - now rewrite app_nil_r.
  - rewrite (IH _ Hrej), fold_pushRepo_app, searchResultsOf_app.
    now rewrite app_assoc.
  - discriminate.
Qed.

Lemma drainSearch_rejected :
  forall pages results error,
    rejection pages = Some error -> drainSearch pages results = Threw error.
Proof.
  induction pages as [|data next IH|e]; intros results error Hrej;
    simpl in *.
  - discriminate.
  - now apply IH.
  - congruence.
Qed.

(** X1: when no page of the search is rejected, the function returns one
    result for every item that has an owner, in page order and in the order
    within the pages, carrying the owner's login, the name and the URL of
    the item; items without owner are left out. *)
Theorem search_returns_owned_repositories :
  forall searchRepos : string -> Pages (list RepoItem),
    rejection (searchRepos SEARCH_QUERY) = None ->
    searchSha1HuludRepositories searchRepos
    = Returned (searchResultsOf (pageItems (searchRepos SEARCH_QUERY)))
    /\ (forall r,
        In r (searchResultsOf (pageItems (searchRepos SEARCH_QUERY))) <->
        exists repo,
          In repo (pageItems (searchRepos SEARCH_QUERY))
          /\ item_owner repo = Some (sr_owner r)
          /\ item_name repo = sr_repo r
          /\ item_html_url repo = sr_url r).
Proof.
  intros searchRepos Hrej. split.
  - unfold searchSha1HuludRepositories.
    now rewrite (drainSearch_returns _ [] Hrej).
  - intros r. apply searchResultsOf_owned.
Qed.

Lemma search_returns_owned_repositories_witness :
  searchSha1HuludRepositories sampleSearch
  = Returned [repoOf "bob" "x"; repoOf "Alice" "z"].
Proof.
  exact (proj1 (@search_returns_owned_repositories sampleSearch eq_refl)).
Defined.

(** X2: when a page of the search is rejected, the first or a later one,
    the function throws an [Error] whose message is the fixed prefix
    followed by the message of the underlying error; the results of the
    pages already read are not returned. *)
Theorem search_failure_is_fatal :
  forall (searchRepos : string -> Pages (list RepoItem)) (error : Thrown),
    rejection (searchRepos SEARCH_QUERY) = Some error ->
    searchSha1HuludRepositories searchRepos
    = Threw (ErrorObject
               ("Failed to search for Sha1-Hulud repositories: "
                ++ errorMessage error)%string).
Proof.
  intros searchRepos error Hrej. unfold searchSha1HuludRepositories.
  now rewrite (drainSearch_rejected _ [] Hrej).
Qed.

Lemma search_failure_is_fatal_witness :
  searchSha1HuludRepositories brokenSearch
  = Threw (ErrorObject
             "Failed to search for Sha1-Hulud repositories: Validation Failed").
Proof.
  exact (@search_failure_is_fatal brokenSearch (ErrorObject "Validation Failed")
           eq_refl).
Defined.

(** ** fetchOutsideCollaborators and the directory *)

Section ListingProperties.

Variable toLowerCase : string -> string.

Lemma fold_add_lower_in :
  forall data s x,
    In x (fold_left (fun s l => JSSet.add (toLowerCase l) s) data s)
    <-> In x s \/ In x (map toLowerCase data).
Proof.
  induction data as [|l rest IH]; intros s x; simpl.
  - tauto.
  - rewrite IH, JSSetFacts.in_add. intuition.
Qed.

Lemma fold_add_lower_NoDup :
  forall data s,
    NoDup s ->
    NoDup (fold_left (fun s l => JSSet.add (toLowerCase l) s) data s).
Proof.
  induction data as [|l rest IH]; intros s Hnd; simpl; [assumption|].
  apply IH. now apply JSSetFacts.NoDup_add.
Qed.

Lemma drainCollaborators_in :
  forall pages s x,
    In x (fst (drainCollaborators toLowerCase pages s))
    <-> In x s \/ In x (map toLowerCase (pageItems pages)).
Proof.
  induction pages as [|data next IH|e]; intros s x; simpl.
  - tauto.
  - rewrite IH, fold_add_lower_in, map_app, in_app_iff. tauto.
  - tauto.
Qed.

Lemma drainCollaborators_NoDup :
  forall pages s,
    NoDup s -> NoDup (fst (drainCollaborators toLowerCase pages s)).
Proof.
  induction pages as [|data next IH|e]; intros s Hnd; simpl; auto.
  apply IH. now apply fold_add_lower_NoDup.
Qed.

Lemma fetchOutsideCollaborators_fst :
  forall octokit org,
    fetchOutsideCollaborators toLowerCase octokit org
    = fst (drainCollaborators toLowerCase
             (listOutsideCollaborators octokit org) JSSet.empty).
Proof.
  intros octokit o. unfold fetchOutsideCollaborators.
  now destruct (drainCollaborators _ _ _).
Qed.

Lemma fetchOutsideCollaborators_in :
  forall octokit org x,
    In x (fetchOutsideCollaborators toLowerCase octokit org)
    <-> In x (map toLowerCase
                (pageItems (listOutsideCollaborators octokit org))).
Proof.
  intros octokit o x.
  rewrite fetchOutsideCollaborators_fst, drainCollaborators_in.
  simpl. tauto.
Qed.

Lemma fetchOutsideCollaborators_has :
  forall octokit org x,
    JSSet.has x (fetchOutsideCollaborators toLowerCase octokit org) = true
    <-> exists l,
        In l (pageItems (listOutsideCollaborators octokit org))
        /\ toLowerCase l = x.
Proof.
  intros octokit o x.
  rewrite JSSetFacts.has_true, fetchOutsideCollaborators_in, in_map_iff.
  split; intros (l & H1 & H2); exists l; auto.
Qed.

(** X3: the set [fetchOutsideCollaborators] returns holds exactly the lower
    case of the logins on the pages read before the listing ended or was
    rejected, each once; [has] answers accordingly. *)
Theorem fetchOutsideCollaborators_holds_listed_logins :
  forall (octokit : Octokit) (org : string),
    let collaborators := fetchOutsideCollaborators toLowerCase octokit org in
    let listed := pageItems (listOutsideCollaborators octokit org) in
    NoDup collaborators
    /\ (forall x, In x collaborators <-> In x (map toLowerCase listed))
    /\ (forall x, JSSet.has x collaborators = true
                  <-> exists l, In l listed /\ toLowerCase l = x).
Proof.
  intros octokit o collaborators listed. subst collaborators listed.
  split; [|split].
  - rewrite fetchOutsideCollaborators_fst.
    apply drainCollaborators_NoDup. constructor.
  - apply fetchOutsideCollaborators_in.
  - apply fetchOutsideCollaborators_has.
Qed.

(** X4: a username resolves against an organization built from the listing
    without regard to case: when its direct membership check is rejected,
    the result is [outside_collaborator] if some login read from the listing
    has the same lower case, and [none] if none has. *)
Theorem listed_collaborator_resolves_by_lower_case :
  forall (octokit : Octokit) (orgLogin username : string) (error : Thrown),
    checkMembershipForUser octokit orgLogin username = Threw error ->
    let org :=
      {| login := orgLogin;
         outsideCollaborators :=
           fetchOutsideCollaborators toLowerCase octokit orgLogin |} in
    let listed := pageItems (listOutsideCollaborators octokit orgLogin) in
    ((exists l, In l listed /\ toLowerCase l = toLowerCase username) ->
     checkUserMembershipInOrg toLowerCase octokit org username
     = outside_collaborator)
    /\ ((forall l, In l listed -> toLowerCase l <> toLowerCase username) ->
        checkUserMembershipInOrg toLowerCase octokit org username = none).
Proof.
  intros octokit orgLogin username error Hdirect o listed.
  unfold checkUserMembershipInOrg. subst o. cbn [login outsideCollaborators].
  rewrite Hdirect.
  split.
  - intros Hlisted. apply fetchOutsideCollaborators_has in Hlisted.
    now rewrite Hlisted.
  - intros Hnone.
    destruct (JSSet.has (toLowerCase username)
                (fetchOutsideCollaborators toLowerCase octokit orgLogin))
      eqn:Hhas; [|reflexivity].
    apply fetchOutsideCollaborators_has in Hhas as (l & Hin & Heq).
    now destruct (Hnone l Hin).
Qed.

End ListingProperties.

Lemma listed_collaborator_resolves_by_lower_case_witness :
  checkUserMembershipInOrg asciiToLowerCase listingApi
    {| login := "acme";
       outsideCollaborators :=
         fetchOutsideCollaborators asciiToLowerCase listingApi "acme" |}
    "CAROL"
  = outside_collaborator.
Proof.
  apply (proj1 (@listed_collaborator_resolves_by_lower_case asciiToLowerCase
                  listingApi "acme" "CAROL" notFound eq_refl)).
  exists "carol". split; [simpl; tauto|reflexivity].
Defined.

(** ** getEnterpriseOrganizations, when it returns *)

Section DirectoryReturns.

Variable toLowerCase : string -> string.

Lemma drainOrganizations_nodes :
  forall pages orgLogins,
    rejection pages = None ->
    drainOrganizations pages orgLogins
    = Returned (orgLogins ++ pageNodes pages).
Proof.
  induction pages as [|response next IH|e]; intros orgLogins Hrej;
    simpl in *.
  - now rewrite app_nil_r.
  - rewrite (IH _ Hrej). now rewrite app_assoc.
  - discriminate.
Qed.

(** X5: when no page of the enterprise query is rejected, the directory
    holds one organization per node of the responses, in response order
    (a response without nodes adds none, a login listed twice appears
    twice), each with the collaborator set fetched for its login. *)
Theorem directory_lists_nodes_in_order :
  forall (octokit : Octokit) (enterprise : string),
    rejection (enterpriseOrganizations octokit enterprise) = None ->
    exists organizations,
      getEnterpriseOrganizations toLowerCase octokit enterprise
      = Returned organizations
      /\ map login organizations
         = pageNodes (enterpriseOrganizations octokit enterprise)
      /\ (forall org,
          In org organizations ->
          outsideCollaborators org
          = fetchOutsideCollaborators toLowerCase octokit (login org)).
Proof.
  intros octokit enterprise Hrej. unfold getEnterpriseOrganizations.
  rewrite (drainOrganizations_nodes _ [] Hrej). simpl.
  eexists. split; [reflexivity|split].
  - rewrite map_map. simpl. apply map_id.
  - intros o Hin. apply in_map_iff in Hin as (l & <- & _). reflexivity.
Qed.

End DirectoryReturns.

Lemma directory_lists_nodes_in_order_witness :
  exists organizations,
    getEnterpriseOrganizations asciiToLowerCase listingApi "corp"
    = Returned organizations
    /\ map login organizations = ["acme"; "beta"]
    /\ (forall org,
        In org organizations ->
        outsideCollaborators org
        = fetchOutsideCollaborators asciiToLowerCase listingApi (login org)).
Proof.
  exact (@directory_lists_nodes_in_order asciiToLowerCase listingApi "corp"
           eq_refl).
Defined.

(** ** checkUserMemberships: completion, visibility and content *)

Lemma in_eventsOf :
  forall i j schedule, In j (eventsOf i schedule) <-> In (i, j) schedule.
Proof.
  intros i j schedule. unfold eventsOf. rewrite in_map_iff. split.
  - intros ([i' j'] & Hsnd & Hin). apply filter_In in Hin as [Hin Hfst].
    simpl in *. apply Nat.eqb_eq in Hfst. now subst.
  - intros Hin. exists (i, j). split; [reflexivity|].
    apply filter_In. split; [assumption|]. simpl. apply Nat.eqb_refl.
Qed.

Lemma map_replace_nth :
  forall (A B : Type) (f : A -> B) (l : list A) (i : nat) (x : A),
    map f (replace_nth i x l) = replace_nth i (f x) (map f l).
Proof.
  intros A B f l. induction l as [|y rest IH]; intros [|i] x; simpl;
    try reflexivity.
  now rewrite IH.
Qed.

Lemma nth_error_injective_on :
  forall (A B : Type) (f : A -> B) (l : list A) (i j : nat) (a b : A),
    NoDup (map f l) ->
    nth_error l i = Some a -> nth_error l j = Some b -> f a = f b -> i = j.
Proof.
  intros A B f l i j a b Hnd Ha Hb Heq.
  apply (proj1 (NoDup_nth_error (map f l)) Hnd).
  - rewrite length_map. apply nth_error_Some. congruence.
  - rewrite !nth_error_map, Ha, Hb. simpl. now rewrite Heq.
Qed.

Lemma in_set_other :
  forall (V : Type) (m : JSMap.t V) (k k' : string) (v v' : V),
    k <> k' -> In (k, v) m -> In (k, v) (JSMap.set k' v' m).
Proof.
  intros V m. induction m as [|[k0 v0] rest IH]; intros k k' v v' Hne Hin;
    simpl in *; [contradiction|].
  destruct (String.eqb k' k0) eqn:Hk.
  - apply String.eqb_eq in Hk. subst k0.
    destruct Hin as [Heq|Hin]; [inversion Heq; congruence|now right].
  - destruct Hin as [Heq|Hin]; [now left|right; now apply IH].
Qed.

Section EngineContent.

Variable toLowerCase : string -> string.
Variable octokit : Octokit.
Variable organizations : list OrganizationInfo.

Lemma settleTask_pending_kept :
  forall task j0 j,
    In j (ut_pending task) -> j <> j0 ->
    In j (ut_pending ((settleTask toLowerCase octokit organizations) task j0)).
Proof.
  intros task j0 j Hin Hne. unfold settleTask.
  destruct (nth_error organizations j0); [|assumption].
  destruct (existsb (Nat.eqb j0) (ut_pending task)); [|assumption].
  simpl. apply filter_In. split; [assumption|].
  apply negb_true_iff. now apply Nat.eqb_neq.
Qed.

Lemma fold_settleTask_pending_kept :
  forall events task j,
    In j (ut_pending task) -> ~ In j events ->
    In j (ut_pending
            (fold_left (settleTask toLowerCase octokit organizations) events
               task)).
Proof.
  induction events as [|j0 rest IH]; intros task j Hin Hnot; simpl.
  - assumption.
  - apply IH.
    + apply settleTask_pending_kept; [assumption|].
      intros ->. apply Hnot. now left.
    + intros Hrest. apply Hnot. now right.
Qed.

(** A user with no check pending has seen every organization settle. *)
Lemma settled_saw_all :
  forall events k j,
    ut_pending
      (fold_left (settleTask toLowerCase octokit organizations) events
         (initialTask organizations k)) = [] ->
    (j < List.length organizations)%nat ->
    In j events.
Proof.
  intros events k j Hdone Hj.
  destruct (in_dec Nat.eq_dec j events) as [Hin|Hnot]; [assumption|].
  exfalso.
  assert (Hpending :
    In j (ut_pending
            (fold_left (settleTask toLowerCase octokit organizations) events
               (initialTask organizations k)))).
  { apply fold_settleTask_pending_kept; [|assumption].
    simpl. apply in_seq. lia. }
  rewrite Hdone in Hpending. contradiction.
Qed.

(** A committed entry, at any point of a schedule: its user is started, is
    fully settled, and the entry is what the user's callbacks built. *)
Lemma committed_entry :
  forall usernames schedule k v,
    In (k, v)
      (userMemberships
         (fold_left (settle toLowerCase octokit organizations) schedule
            (startEngine organizations (worklist toLowerCase usernames)))) ->
    exists i,
      nth_error (worklist toLowerCase usernames) i = Some k
      /\ v = ut_membership
               (fold_left (settleTask toLowerCase octokit organizations)
                  (eventsOf i schedule) (initialTask organizations k))
      /\ ut_pending
           (fold_left (settleTask toLowerCase octokit organizations)
              (eventsOf i schedule) (initialTask organizations k)) = [].
Proof.
  intros usernames schedule k v Hin.
  apply committed_run in Hin; [|apply committed_start].
  destruct Hin as (i & task & Hnth & Hv & Hk & Hdone).
  rewrite run_task in Hnth. unfold startEngine in Hnth. simpl in Hnth.
  rewrite nth_error_map in Hnth.
  destruct (nth_error (worklist toLowerCase usernames) i) as [k0|] eqn:Hk0;
    [|discriminate].
  simpl in Hnth. inversion Hnth as [Htask]; clear Hnth.
  assert (k0 = k) as ->.
  { rewrite <- Hk, <- Hv, <- Htask.
    now rewrite fold_settleTask_username. }
  exists i. rewrite Htask. auto.
Qed.

(** X6: [checkUserMemberships] fulfils exactly when every check it started,
    of every started user against every organization, has settled. *)
Theorem checkUserMemberships_fulfils_iff_all_settled :
  forall (usernames : list string) (schedule : list (nat * nat)),
    (exists m,
        checkUserMemberships toLowerCase octokit organizations usernames
          schedule
        = Some m)
    <-> (forall i j,
            (i < List.length (worklist toLowerCase usernames))%nat ->
            (j < List.length organizations)%nat ->
            In (i, j) schedule).
Proof.
  intros usernames schedule. split.
  - intros [m Hrun] i j Hi Hj.
    unfold checkUserMemberships in Hrun.
    fold (worklist toLowerCase usernames) in Hrun.
    destruct (forallb _ _) eqn:Hall; [|discriminate].
    rewrite forallb_forall in Hall.
    destruct (nth_error (worklist toLowerCase usernames) i) as [k|] eqn:Hk;
      [|apply nth_error_None in Hk; lia].
    pose proof (run_task toLowerCase octokit organizations schedule
                  (startEngine organizations (worklist toLowerCase usernames))
                  i) as Htask.
    unfold startEngine at 2 in Htask. cbn [tasks] in Htask.
    rewrite nth_error_map, Hk in Htask. cbn [option_map] in Htask.
    apply nth_error_In in Htask. apply Hall in Htask.
    apply isEmpty_true in Htask.
    apply in_eventsOf. eapply settled_saw_all; eassumption.
  - apply checkUserMemberships_returns.
Qed.

(** X7: no partly filled entry is ever visible. At any point of any
    schedule, an entry of [userMemberships] belongs to a started user all
    of whose organization checks have settled, and it is what that user's
    callbacks built. *)
Theorem entries_are_visible_only_when_complete :
  forall (usernames : list string) (schedule : list (nat * nat))
         (k : string) (v : UserMembership),
    In (k, v)
      (userMemberships
         (fold_left (settle toLowerCase octokit organizations) schedule
            (startEngine organizations (worklist toLowerCase usernames)))) ->
    exists i,
      nth_error (worklist toLowerCase usernames) i = Some k
      /\ (forall j, (j < List.length organizations)%nat -> In (i, j) schedule)
      /\ v = ut_membership
               (fold_left (settleTask toLowerCase octokit organizations)
                  (eventsOf i schedule) (initialTask organizations k)).
Proof.
  intros usernames schedule k v Hin.
  destruct (committed_entry _ _ _ _ Hin) as (i & Hnth & Hv & Hdone).
  exists i. split; [assumption|split; [|assumption]].
  intros j Hj. apply in_eventsOf. eapply settled_saw_all; eassumption.
Qed.

(** The usernames of the tasks stay those of the worklist. *)
Lemma settle_usernames :
  forall engine event,
    map (fun task => um_username (ut_membership task))
      (tasks (settle toLowerCase octokit organizations engine event))
    = map (fun task => um_username (ut_membership task)) (tasks engine).
Proof.
  intros engine [i j]. rewrite settle_tasks.
  destruct (nth_error (tasks engine) i) as [task|] eqn:Htask; [|reflexivity].
  rewrite map_replace_nth, settleTask_username.
  apply replace_nth_same. rewrite nth_error_map, Htask. reflexivity.
Qed.

Lemma entry_persists_settle :
  forall engine event k v,
    committed engine ->
    NoDup (map (fun task => um_username (ut_membership task)) (tasks engine)) ->
    In (k, v) (userMemberships engine) ->
    In (k, v)
      (userMemberships (settle toLowerCase octokit organizations engine event)).
Proof.
  intros engine [i j] k v Hinv Hnd Hin.
  destruct (settle_cases toLowerCase octokit organizations engine i j)
    as [->|(task & Htask & Hflight & ->)]; [assumption|].
  simpl. unfold commitWhenSettled.
  destruct (isEmpty _); [|assumption].
  apply in_set_other; [|assumption].
  intros Hsame.
  destruct (Hinv _ _ Hin) as (i1 & task1 & Hnth1 & Hv & Hk & Hdone1).
  rewrite settleTask_username in Hsame.
  assert (i1 = i).
  { eapply (nth_error_injective_on
              (fun task => um_username (ut_membership task)));
      try eassumption.
    rewrite Hv. congruence. }
  subst i1. rewrite Htask in Hnth1. inversion Hnth1; subst task1.
  rewrite Hdone1 in Hflight. discriminate.
Qed.

Lemma entry_persists_run :
  forall more engine k v,
    committed engine ->
    NoDup (map (fun task => um_username (ut_membership task)) (tasks engine)) ->
    In (k, v) (userMemberships engine) ->
    In (k, v)
      (userMemberships
         (fold_left (settle toLowerCase octokit organizations) more engine)).
Proof.
  induction more as [|event rest IH]; intros engine k v Hinv Hnd Hin; simpl.
  - assumption.
  - apply IH.
    + now apply committed_settle.
    + now rewrite settle_usernames.
    + now apply entry_persists_settle.
Qed.

Lemma worklist_NoDup :
  forall usernames, NoDup (worklist toLowerCase usernames).
Proof.
  intros usernames.
  apply (NoDup_map_inv toLowerCase). apply startedUsernames_NoDup.
Qed.

Lemma run_usernames :
  forall schedule engine,
    map (fun task => um_username (ut_membership task))
      (tasks (fold_left (settle toLowerCase octokit organizations) schedule
                engine))
    = map (fun task => um_username (ut_membership task)) (tasks engine).
Proof.
  induction schedule as [|event rest IH]; intros engine; simpl.
  - reflexivity.
  - now rewrite IH, settle_usernames.
Qed.

(** X8: an entry is written once. Whatever settles after an entry has
    become visible, the entry stays in the map, unchanged. *)
Theorem entries_are_written_once :
  forall (usernames : list string) (schedule more : list (nat * nat))
         (k : string) (v : UserMembership),
    In (k, v)
      (userMemberships
         (fold_left (settle toLowerCase octokit organizations) schedule
            (startEngine organizations (worklist toLowerCase usernames)))) ->
    In (k, v)
      (userMemberships
         (fold_left (settle toLowerCase octokit organizations)
            (schedule ++ more)
            (startEngine organizations (worklist toLowerCase usernames)))).
Proof.
  intros usernames schedule more k v Hin.
  rewrite fold_left_app. apply entry_persists_run; [| |assumption].
  - apply committed_run. apply committed_start.
  - rewrite run_usernames. unfold startEngine. cbn [tasks].
    rewrite map_map. simpl. rewrite map_id. apply worklist_NoDup.
Qed.

(** X9: every username of the input is represented: the result has a key
    with the same lower case. *)
Theorem every_input_username_has_an_entry :
  forall (usernames : list string) (schedule : list (nat * nat))
         (m : JSMap.t UserMembership) (u : string),
    checkUserMemberships toLowerCase octokit organizations usernames schedule
    = Some m ->
    In u usernames ->
    exists k, In k (JSMap.keys m) /\ toLowerCase k = toLowerCase u.
Proof.
  intros usernames schedule m u Hrun Hu.
  eapply checkUserMemberships_covers_input; eassumption.
Qed.

End EngineContent.

Section EngineLookup.

Variable toLowerCase : string -> string.
Variable octokit : Octokit.
Variable organizations : list OrganizationInfo.
Hypothesis logins_distinct : NoDup (map login organizations).

(** Every organization whose check has settled with a relationship is
    recorded, under its login, with that relationship. *)
Lemma settleTask_recorded :
  forall task j0,
    (forall j org,
        nth_error organizations j = Some org ->
        ~ In j (ut_pending task) ->
        checkUserMembershipInOrg toLowerCase octokit org
          (um_username (ut_membership task)) <> none ->
        JSMap.get (login org) (um_organizations (ut_membership task))
        = Some (checkUserMembershipInOrg toLowerCase octokit org
                  (um_username (ut_membership task)))) ->
    forall j org,
      nth_error organizations j = Some org ->
      ~ In j (ut_pending (settleTask toLowerCase octokit organizations task j0)) ->
      checkUserMembershipInOrg toLowerCase octokit org
        (um_username
           (ut_membership (settleTask toLowerCase octokit organizations task j0)))
      <> none ->
      JSMap.get (login org)
        (um_organizations
           (ut_membership (settleTask toLowerCase octokit organizations task j0)))
      = Some (checkUserMembershipInOrg toLowerCase octokit org
                (um_username
                   (ut_membership
                      (settleTask toLowerCase octokit organizations task j0)))).
Proof.
  intros task j0 Hinv j o Hnth Hsettled.
  rewrite settleTask_username. intros Hrel.
  unfold settleTask in *.
  destruct (nth_error organizations j0) as [o0|] eqn:Hnth0;
    [|now apply (Hinv j o)].
  destruct (existsb (Nat.eqb j0) (ut_pending task)) eqn:Hflight;
    [|now apply (Hinv j o)].
  cbn [ut_membership ut_pending] in *.
  destruct (Nat.eq_dec j j0) as [->|Hne].
  - assert (o0 = o) by congruence. subst o0.
    unfold orgCallback.
    destruct (checkUserMembershipInOrg toLowerCase octokit o
                (um_username (ut_membership task))) eqn:Hcheck;
      try congruence; simpl; apply JSMapFacts.get_set_same.
  - assert (Hold : ~ In j (ut_pending task)).
    { intros Hin. apply Hsettled. apply filter_In. split; [assumption|].
      apply negb_true_iff. now apply Nat.eqb_neq. }
    specialize (Hinv j o Hnth Hold Hrel).
    unfold orgCallback.
    destruct (negb (MembershipType_eqb _ none)); [|assumption].
    cbn [um_organizations].
    rewrite JSMapFacts.get_set_other; [assumption|].
    intros Hlogin. apply Hne.
    eapply (nth_error_injective_on login); eassumption.
Qed.

Lemma fold_settleTask_recorded :
  forall events task,
    (forall j org,
        nth_error organizations j = Some org ->
        ~ In j (ut_pending task) ->
        checkUserMembershipInOrg toLowerCase octokit org
          (um_username (ut_membership task)) <> none ->
        JSMap.get (login org) (um_organizations (ut_membership task))
        = Some (checkUserMembershipInOrg toLowerCase octokit org
                  (um_username (ut_membership task)))) ->
    forall j org,
      nth_error organizations j = Some org ->
      ~ In j (ut_pending
                (fold_left (settleTask toLowerCase octokit organizations)
                   events task)) ->
      checkUserMembershipInOrg toLowerCase octokit org
        (um_username (ut_membership task)) <> none ->
      JSMap.get (login org)
        (um_organizations
           (ut_membership
              (fold_left (settleTask toLowerCase octokit organizations)
                 events task)))
      = Some (checkUserMembershipInOrg toLowerCase octokit org
                (um_username (ut_membership task))).
Proof.
  induction events as [|j0 rest IH]; intros task Hinv j o Hnth Hsettled Hrel;
    simpl in *.
  - now apply (Hinv j o).
  - rewrite <- (settleTask_username toLowerCase octokit organizations task j0).
    apply IH with (j := j); try assumption.
    + now apply settleTask_recorded.
    + now rewrite settleTask_username.
Qed.

(** What an entry of the result holds for an organization. *)
Lemma entry_lookup :
  forall usernames schedule m k v org,
    checkUserMemberships toLowerCase octokit organizations usernames schedule
    = Some m ->
    In (k, v) m ->
    In org organizations ->
    JSMap.get (login org) (um_organizations v)
    = match checkUserMembershipInOrg toLowerCase octokit org k with
      | none => None
      | relationship => Some relationship
      end.
Proof.
  intros usernames schedule m k v o Hrun Hin Horg.
  unfold checkUserMemberships in Hrun.
  fold (worklist toLowerCase usernames) in Hrun.
  destruct (forallb _ _); [|discriminate].
  inversion Hrun as [Hm]; clear Hrun. rewrite <- Hm in Hin.
  destruct (committed_entry _ _ _ _ _ _ _ Hin) as (i & Hnth & Hv & Hdone).
  assert (Hrel : relationshipsOnly toLowerCase octokit organizations v).
  { rewrite Hv. apply fold_settleTask_relationshipsOnly.
    split; simpl; [intros ? ? []|constructor]. }
  assert (Hname : um_username v = k).
  { rewrite Hv. now rewrite fold_settleTask_username. }
  destruct (checkUserMembershipInOrg toLowerCase octokit o k) eqn:Hcheck.
  - apply In_nth_error in Horg as [j Hj].
    rewrite <- Hcheck, Hv.
    change k with (um_username (ut_membership (initialTask organizations k))).
    apply fold_settleTask_recorded with (j := j); try assumption.
    + intros j' o' Hnth' Hpending. exfalso. apply Hpending.
      simpl. apply in_seq. split; [lia|].
      simpl. apply nth_error_Some. congruence.
    + rewrite Hdone. tauto.
    + simpl. congruence.
  - apply In_nth_error in Horg as [j Hj].
    rewrite <- Hcheck, Hv.
    change k with (um_username (ut_membership (initialTask organizations k))).
    apply fold_settleTask_recorded with (j := j); try assumption.
    + intros j' o' Hnth' Hpending. exfalso. apply Hpending.
      simpl. apply in_seq. split; [lia|].
      simpl. apply nth_error_Some. congruence.
    + rewrite Hdone. tauto.
    + simpl. congruence.
  - destruct (JSMap.get (login o) (um_organizations v)) as [ty|] eqn:Hget;
      [|reflexivity].
    exfalso. apply JSMapFacts.get_in in Hget.
    destruct Hrel as [Hentries _].
    destruct (Hentries _ _ Hget) as (Hnone & o' & Ho' & Hlogin & Hty).
    assert (o' = o).
    { eapply (map_injective_on login); eassumption. }
    subst o'. rewrite Hname in Hty. congruence.
Qed.

Lemma entry_lookup_elsewhere :
  forall usernames schedule m k v o,
    checkUserMemberships toLowerCase octokit organizations usernames schedule
    = Some m ->
    In (k, v) m ->
    ~ In o (map login organizations) ->
    JSMap.get o (um_organizations v) = None.
Proof.
  intros usernames schedule m k v o Hrun Hin Hnot.
  destruct (JSMap.get o (um_organizations v)) as [ty|] eqn:Hget;
    [|reflexivity].
  exfalso. apply JSMapFacts.get_in in Hget.
  destruct (@checkUserMemberships_entry toLowerCase octokit organizations
              usernames schedule m k v Hrun Hin) as (i & _ & Hv).
  assert (Hrel : relationshipsOnly toLowerCase octokit organizations v).
  { rewrite Hv. apply fold_settleTask_relationshipsOnly.
    split; simpl; [intros ? ? []|constructor]. }
  destruct Hrel as [Hentries _].
  destruct (Hentries _ _ Hget) as (_ & o' & Ho' & Hlogin & _).
  apply Hnot. rewrite <- Hlogin. now apply in_map.
Qed.

(** X10: when the organizations have distinct logins, an entry of the
    result maps the login of each organization to the relationship its check
    gave for the entry's user, has no key for an organization whose check
    gave [none], and has no other key. *)
Theorem entry_records_every_relationship :
  forall (usernames : list string) (schedule : list (nat * nat))
         (m : JSMap.t UserMembership) (k : string) (v : UserMembership),
    checkUserMemberships toLowerCase octokit organizations usernames schedule
    = Some m ->
    In (k, v) m ->
    (forall org,
        In org organizations ->
        JSMap.get (login org) (um_organizations v)
        = match checkUserMembershipInOrg toLowerCase octokit org k with
          | none => None
          | relationship => Some relationship
          end)
    /\ (forall o,
        ~ In o (map login organizations) ->
        JSMap.get o (um_organizations v) = None).
Proof.
  intros usernames schedule m k v Hrun Hin. split.
  - intros o Ho. eapply entry_lookup; eassumption.
  - intros o Ho. eapply entry_lookup_elsewhere; eassumption.
Qed.

End EngineLookup.

Section EngineComposition.

Variable toLowerCase : string -> string.
Variable octokit : Octokit.
Variable organizations : list OrganizationInfo.

Lemma entry_relationshipsOnly :
  forall usernames schedule m k v,
    checkUserMemberships toLowerCase octokit organizations usernames schedule
    = Some m ->
    In (k, v) m ->
    relationshipsOnly toLowerCase octokit organizations v
    /\ um_username v = k
    /\ In k (worklist toLowerCase usernames).
Proof.
  intros usernames schedule m k v Hrun Hin.
  destruct (@checkUserMemberships_entry toLowerCase octokit organizations
              usernames schedule m k v Hrun Hin) as (i & Hnth & Hv).
  split; [|split].
  - rewrite Hv. apply fold_settleTask_relationshipsOnly.
    split; simpl; [intros ? ? []|constructor].
  - rewrite Hv. now rewrite fold_settleTask_username.
  - eapply nth_error_In; eassumption.
Qed.

Lemma started_username_has_entry :
  forall usernames schedule m k,
    checkUserMemberships toLowerCase octokit organizations usernames schedule
    = Some m ->
    In k (worklist toLowerCase usernames) ->
    exists v, In (k, v) m.
Proof.
  intros usernames schedule m k Hrun Hk.
  destruct (worklist_spec _ _ _ Hk) as [Hinput _].
  destruct (@checkUserMemberships_covers_input toLowerCase octokit
              organizations usernames schedule m k Hrun Hinput)
    as (k2 & Hkey & Hlower).
  apply in_map_iff in Hkey as ([k2' v2] & Hfst & Hin2). simpl in Hfst.
  subst k2'.
  destruct (@entry_relationshipsOnly usernames schedule m k2 v2 Hrun Hin2)
    as (_ & _ & Hk2).
  assert (k2 = k).
  { eapply (map_injective_on toLowerCase); try eassumption.
    apply startedUsernames_NoDup. }
  subst k2. now exists v2.
Qed.

(** X11: the order in which the checks settle changes the order of the
    keys only. When the organizations have distinct logins, two runs on the
    same input that both fulfil have the same usernames as keys, and for
    each of them organizations maps that answer every lookup alike. *)
Theorem result_is_independent_of_settlement_order :
  forall (usernames : list string) (schedule1 schedule2 : list (nat * nat))
         (m1 m2 : JSMap.t UserMembership),
    NoDup (map login organizations) ->
    checkUserMemberships toLowerCase octokit organizations usernames schedule1
    = Some m1 ->
    checkUserMemberships toLowerCase octokit organizations usernames schedule2
    = Some m2 ->
    forall k v1,
      In (k, v1) m1 ->
      exists v2,
        In (k, v2) m2
        /\ um_username v2 = um_username v1
        /\ forall o,
            JSMap.get o (um_organizations v1)
            = JSMap.get o (um_organizations v2).
Proof.
  intros usernames schedule1 schedule2 m1 m2 Hlogins Hrun1 Hrun2 k v1 Hin1.
  destruct (@entry_relationshipsOnly usernames schedule1 m1 k v1 Hrun1 Hin1)
    as (_ & Hname1 & Hk).
  destruct (@started_username_has_entry usernames schedule2 m2 k Hrun2 Hk)
    as [v2 Hin2].
  destruct (@entry_relationshipsOnly usernames schedule2 m2 k v2 Hrun2 Hin2)
    as (_ & Hname2 & _).
  exists v2. split; [assumption|split; [congruence|]].
  intros o.
  destruct (in_dec string_dec o (map login organizations)) as [Ho|Ho].
  - apply in_map_iff in Ho as (org & <- & Horg).
    rewrite (@entry_lookup toLowerCase octokit organizations Hlogins
               usernames schedule1 m1 k v1 org Hrun1 Hin1 Horg).
    now rewrite (@entry_lookup toLowerCase octokit organizations Hlogins
                   usernames schedule2 m2 k v2 org Hrun2 Hin2 Horg).
  - rewrite (@entry_lookup_elsewhere toLowerCase octokit organizations
               usernames schedule1 m1 k v1 o Hrun1 Hin1 Ho).
    now rewrite (@entry_lookup_elsewhere toLowerCase octokit organizations
                   usernames schedule2 m2 k v2 o Hrun2 Hin2 Ho).
Qed.

Variable localeCompare : string -> string -> Z.

(** X12: memberships attach to the casing seen first. A result of
    [aggregateResults] over the map [checkUserMemberships] fulfilled with
    has memberships only if its username is, letter for letter, the first
    of the checked usernames with its lower case; an owner spelled with
    another casing gets an empty list. *)
Theorem memberships_attach_to_first_seen_casing :
  forall (usernames : list string) (schedule : list (nat * nat))
         (m : JSMap.t UserMembership) (repositories : list SearchResult)
         (r : UserResult),
    checkUserMemberships toLowerCase octokit organizations usernames schedule
    = Some m ->
    In r (aggregateResults localeCompare repositories m) ->
    ur_memberships r <> [] ->
    find (fun u => String.eqb (toLowerCase u) (toLowerCase (ur_username r)))
      usernames
    = Some (ur_username r).
Proof.
  intros usernames schedule m repositories r Hrun Hr Hsome.
  rewrite (aggregateResults_memberships _ _ _ _ Hr) in Hsome.
  unfold membershipList in Hsome.
  destruct (JSMap.get (ur_username r) m) as [v|] eqn:Hget; [|congruence].
  apply JSMapFacts.get_in in Hget.
  destruct (@entry_relationshipsOnly usernames schedule m (ur_username r) v
              Hrun Hget) as (_ & _ & Hk).
  now destruct (worklist_spec _ _ _ Hk).
Qed.

(** X13: the memberships of a result built from the map
    [checkUserMemberships] fulfilled with name each organization at most
    once, name only given organizations, and never have type [none]. *)
Theorem result_memberships_are_relationships :
  forall (usernames : list string) (schedule : list (nat * nat))
         (m : JSMap.t UserMembership) (repositories : list SearchResult)
         (r : UserResult),
    checkUserMemberships toLowerCase octokit organizations usernames schedule
    = Some m ->
    In r (aggregateResults localeCompare repositories m) ->
    NoDup (map org (ur_memberships r))
    /\ (forall x,
        In x (ur_memberships r) ->
        type x <> none /\ In (org x) (map login organizations)).
Proof.
  intros usernames schedule m repositories r Hrun Hr.
  rewrite (aggregateResults_memberships _ _ _ _ Hr).
  unfold membershipList.
  destruct (JSMap.get (ur_username r) m) as [v|] eqn:Hget.
  - apply JSMapFacts.get_in in Hget.
    destruct (@entry_relationshipsOnly usernames schedule m (ur_username r) v
                Hrun Hget) as ([Hentries Hnd] & _).
    split.
    + rewrite map_map.
      replace (map (fun x => org (let '(org, type) := x in
                                  {| org := org; type := type |}))
                 (um_organizations v))
        with (JSMap.keys (um_organizations v)); [assumption|].
      unfold JSMap.keys. apply map_ext. now intros [o ty].
    + intros x Hx. apply in_map_iff in Hx as ([o ty] & <- & Hin). simpl.
      destruct (Hentries _ _ Hin) as (Hnone & o' & Ho' & Hlogin & _).
      split; [assumption|]. rewrite <- Hlogin. now apply in_map.
  - split; [constructor|intros x []].
Qed.

End EngineComposition.

Lemma entries_are_visible_only_when_complete_witness :
  exists i,
    nth_error (worklist asciiToLowerCase malloryNames) i = Some "Mallory"
    /\ (forall j, (j < 1)%nat -> In (i, j) [(0, 0)]%nat).
Proof.
  destruct (@entries_are_visible_only_when_complete asciiToLowerCase acmeApi
              acmeWithMallory malloryNames [(0, 0)]%nat "Mallory" malloryEntry
              (or_introl eq_refl)) as (i & Hnth & Hall & _).
  exists i. split; [exact Hnth|exact Hall].
Defined.

Lemma entries_are_written_once_witness :
  In ("Mallory", malloryEntry)
    (userMemberships
       (fold_left (settle asciiToLowerCase acmeApi acmeWithMallory)
          ([(0, 0)] ++ [(0, 0); (5, 5)])%nat
          (startEngine acmeWithMallory
             (worklist asciiToLowerCase malloryNames)))).
Proof.
  exact (@entries_are_written_once asciiToLowerCase acmeApi acmeWithMallory
           malloryNames [(0, 0)]%nat [(0, 0); (5, 5)]%nat "Mallory"
           malloryEntry (or_introl eq_refl)).
Defined.

Lemma every_input_username_has_an_entry_witness :
  exists k,
    In k (JSMap.keys [("Mallory", malloryEntry)])
    /\ asciiToLowerCase k = asciiToLowerCase "mallory".
Proof.
  exact (@every_input_username_has_an_entry asciiToLowerCase acmeApi
           acmeWithMallory malloryNames [(0, 0)]%nat
           [("Mallory", malloryEntry)] "mallory" eq_refl
           (or_intror (or_introl eq_refl))).
Defined.

Lemma acmeWithMallory_logins_distinct :
  NoDup (map login acmeWithMallory).
Proof. repeat constructor. simpl. tauto. Qed.

Lemma twoOrganizations_logins_distinct :
  NoDup (map login twoOrganizations).
Proof.
  repeat constructor; simpl; intros H; decompose [or] H;
    try discriminate; contradiction.
Qed.

Lemma entry_records_every_relationship_witness :
  JSMap.get "acme" (um_organizations malloryEntry)
  = Some outside_collaborator.
Proof.
  exact (proj1 (@entry_records_every_relationship asciiToLowerCase acmeApi
                  acmeWithMallory acmeWithMallory_logins_distinct malloryNames
                  [(0, 0)]%nat [("Mallory", malloryEntry)] "Mallory"
                  malloryEntry eq_refl (or_introl eq_refl))
           {| login := "acme"; outsideCollaborators := ["mallory"] |}
           (or_introl eq_refl)).
Defined.

Lemma result_is_independent_of_settlement_order_witness :
  exists v2,
    In ("mallory", v2)
      [("mallory",
        {| um_username := "mallory";
           um_organizations := [("beta", member); ("acme", member)] |})]
    /\ um_username v2 = "mallory"
    /\ forall o,
        JSMap.get o [("acme", member); ("beta", member)]
        = JSMap.get o (um_organizations v2).
Proof.
  exact (@result_is_independent_of_settlement_order asciiToLowerCase
           allMembersApi twoOrganizations ["mallory"]
           [(0, 0); (0, 1)]%nat [(0, 1); (0, 0)]%nat _ _
           twoOrganizations_logins_distinct eq_refl eq_refl "mallory"
           {| um_username := "mallory";
              um_organizations := [("acme", member); ("beta", member)] |}
           (or_introl eq_refl)).
Defined.

Lemma memberships_attach_to_first_seen_casing_witness :
  find (fun u => String.eqb (asciiToLowerCase u) (asciiToLowerCase "Mallory"))
    malloryNames
  = Some "Mallory".
Proof.
  refine (@memberships_attach_to_first_seen_casing asciiToLowerCase acmeApi
            acmeWithMallory codeUnitCompare malloryNames [(0, 0)]%nat
            [("Mallory", malloryEntry)] [repoOf "Mallory" "x"] malloryResult
            eq_refl (or_introl eq_refl) _).
  discriminate.
Defined.

Lemma result_memberships_are_relationships_witness :
  NoDup (map org (ur_memberships malloryResult))
  /\ (forall x,
      In x (ur_memberships malloryResult) ->
      type x <> none /\ In (org x) (map login acmeWithMallory)).
Proof.
  exact (@result_memberships_are_relationships asciiToLowerCase acmeApi
           acmeWithMallory codeUnitCompare malloryNames [(0, 0)]%nat
           [("Mallory", malloryEntry)] [repoOf "Mallory" "x"] malloryResult
           eq_refl (or_introl eq_refl)).
Defined.

(** ** aggregateResults: what becomes of the repositories *)

Section RepositoriesKept.

Variable localeCompare : string -> string -> Z.

Lemma in_aggregateResults :
  forall repositories memberships r,
    In r (aggregateResults localeCompare repositories memberships)
    <-> In r (buildResults (groupByOwner repositories) memberships).
Proof.
  intros repositories memberships r. split; apply Permutation_in.
  - apply aggregateResults_Permutation.
  - symmetry. apply aggregateResults_Permutation.
Qed.

(** X14: no repository is lost and none is invented. Every result has at
    least one repository; its repositories are input repositories whose
    owner is, letter for letter, its username; and every input repository
    is among the repositories of the result named after its owner. *)
Theorem every_repository_goes_to_its_owner :
  forall (repositories : list SearchResult)
         (memberships : JSMap.t UserMembership),
    let results := aggregateResults localeCompare repositories memberships in
    (forall r,
        In r results ->
        ur_repositories r <> []
        /\ (forall x, In x (ur_repositories r) ->
                      In x repositories /\ sr_owner x = ur_username r))
    /\ (forall x,
        In x repositories ->
        exists r,
          In r results /\ ur_username r = sr_owner x
          /\ In x (ur_repositories r)).
Proof.
  intros repositories memberships results. subst results. split.
  - intros r Hr. apply in_aggregateResults in Hr.
    apply in_buildResults in Hr as [Hentry _].
    assert (Howner : In (ur_username r) (map sr_owner repositories)).
    { apply groupByOwner_keys. apply in_map_iff.
      now exists (ur_username r, ur_repositories r). }
    apply groupByOwner_entry in Hentry. rewrite Hentry. split.
    + apply in_map_iff in Howner as (x & Hx & Hin).
      intros Hnil.
      assert (Hfil :
        In x (filter (fun r0 => String.eqb (sr_owner r0) (ur_username r))
                repositories)).
      { apply filter_In. split; [assumption|]. now apply String.eqb_eq. }
      rewrite Hnil in Hfil. contradiction.
    + intros x Hx. apply filter_In in Hx as [Hin Heq].
      split; [assumption|now apply String.eqb_eq].
  - intros x Hx.
    assert (Hkey : In (sr_owner x) (JSMap.keys (groupByOwner repositories))).
    { apply groupByOwner_keys. now apply in_map. }
    apply in_map_iff in Hkey as ([k repos] & Hk & Hentry). simpl in Hk.
    subst k.
    exists {| ur_username := sr_owner x;
              ur_repositories := repos;
              ur_memberships := membershipList memberships (sr_owner x) |}.
    split; [|split; [reflexivity|]].
    + apply in_aggregateResults. unfold buildResults. apply in_map_iff.
      now exists (sr_owner x, repos).
    + simpl. rewrite (groupByOwner_entry _ _ _ Hentry).
      apply filter_In. split; [assumption|apply String.eqb_refl].
Qed.

End RepositoriesKept.

(** ** calculateStats *)

Lemma fold_countUser :
  forall results a b c,
    fold_left countUser results (a, b, c)
    = ((a + list_sum (map (fun u => List.length (ur_repositories u)) results))%nat,
       (b + List.length (filter hasMemberships results))%nat,
       (c + list_sum (map (fun u => List.length (ur_memberships u)) results))%nat).
Proof.
  induction results as [|user rest IH]; intros a b c; simpl.
  - now rewrite !Nat.add_0_r.
  - unfold hasMemberships at 1.
    destruct (Nat.ltb_spec 0 (List.length (ur_memberships user))) as [Hpos|Hzero].
    + rewrite IH. simpl. f_equal; [f_equal|]; lia.
    + rewrite IH. f_equal; [f_equal|]; lia.
Qed.

Lemma filter_hasMemberships_le :
  forall results,
    (List.length (filter hasMemberships results)
     <= list_sum (map (fun u => List.length (ur_memberships u)) results))%nat.
Proof.
  induction results as [|user rest IH]; simpl; [lia|].
  unfold hasMemberships at 1.
  destruct (Nat.ltb_spec 0 (List.length (ur_memberships user))); simpl; lia.
Qed.

(** X15: the statistics of a result list: [totalRepositories] and
    [totalMemberships] are the sums of the list lengths over all users (the
    guard on users without memberships changes nothing), [uniqueUsers] is
    the number of results, and [usersWithMemberships] exceeds neither
    [uniqueUsers] nor [totalMemberships]. *)
Theorem calculateStats_totals :
  forall results : list UserResult,
    let stats := calculateStats results in
    totalRepositories stats
    = list_sum (map (fun u => List.length (ur_repositories u)) results)
    /\ totalMemberships stats
       = list_sum (map (fun u => List.length (ur_memberships u)) results)
    /\ uniqueUsers stats = List.length results
    /\ (usersWithMemberships stats <= uniqueUsers stats)%nat
    /\ (usersWithMemberships stats <= totalMemberships stats)%nat
    /\ (usersWithMemberships stats = 0%nat <-> totalMemberships stats = 0%nat).
Proof.
  intros results stats. subst stats. unfold calculateStats.
  rewrite fold_countUser. simpl.
  pose proof (filter_hasMemberships_le results) as Hle.
  pose proof (filter_length_le hasMemberships results) as Hle'.
  repeat split; try lia.
  intros Hzero. clear Hle Hle'.
  induction results as [|user rest IH]; simpl in *; [reflexivity|].
  unfold hasMemberships at 1 in Hzero.
  destruct (Nat.ltb_spec 0 (List.length (ur_memberships user)));
    simpl in *; [discriminate|]. rewrite IH; [lia|assumption].
Qed.

Lemma list_sum_Permutation :
  forall l l', Permutation l l' -> list_sum l = list_sum l'.
Proof.
  intros l l' Hperm. induction Hperm; simpl; lia.
Qed.

Lemma groupedCount_step :
  forall userRepos repo,
    groupedCount (groupStep userRepos repo) = S (groupedCount userRepos).
Proof.
  intros userRepos repo. unfold groupStep, groupedCount.
  induction userRepos as [|[k0 v0] rest IH]; simpl.
  - reflexivity.
  - unfold reposOf in *. simpl.
    destruct (String.eqb (sr_owner repo) k0) eqn:Hk; simpl.
    + rewrite length_app. simpl. lia.
    + rewrite IH. lia.
Qed.

Lemma groupedCount_fold :
  forall repositories userRepos,
    groupedCount (fold_left groupStep repositories userRepos)
    = (groupedCount userRepos + List.length repositories)%nat.
Proof.
  induction repositories as [|repo rest IH]; intros userRepos; simpl.
  - lia.
  - rewrite IH, groupedCount_step. lia.
Qed.

(** X16: the statistics of aggregated results count the input:
    [totalRepositories] is the number of repositories given, duplicates
    included, and [uniqueUsers] the number of distinct raw owner strings. *)
Theorem stats_of_aggregated_results_count_the_input :
  forall (localeCompare : string -> string -> Z)
         (repositories : list SearchResult)
         (memberships : JSMap.t UserMembership),
    let stats :=
      calculateStats (aggregateResults localeCompare repositories memberships) in
    totalRepositories stats = List.length repositories
    /\ uniqueUsers stats
       = List.length (nodup string_dec (map sr_owner repositories)).
Proof.
  intros localeCompare repositories memberships stats. subst stats.
  unfold calculateStats. rewrite fold_countUser. simpl. split.
  - rewrite (list_sum_Permutation
               (Permutation_map (fun u => List.length (ur_repositories u))
                  (aggregateResults_Permutation localeCompare repositories
                     memberships))).
    unfold buildResults. rewrite map_map.
    replace (map _ (groupByOwner repositories))
      with (map (fun entry : string * list SearchResult =>
                   List.length (snd entry)) (groupByOwner repositories)).
    + fold (groupedCount (groupByOwner repositories)).
      unfold groupByOwner. now rewrite groupedCount_fold.
    + apply map_ext. now intros [k v].
  - rewrite <- (length_map ur_username).
    apply Permutation_length. apply aggregateResults_usernames.
Qed.

(** ** escapeHtml *)

Lemma string_app_assoc :
  forall a b c : string, ((a ++ b) ++ c)%string = (a ++ (b ++ c))%string.
Proof.
  induction a as [|x a IH]; intros b c; simpl; [reflexivity|].
  now rewrite IH.
Qed.

Lemma string_app_nil_r :
  forall a : string, (a ++ EmptyString)%string = a.
Proof.
  induction a as [|x a IH]; simpl; [reflexivity|]. now rewrite IH.
Qed.

Lemma chars_app :
  forall a b : string,
    list_ascii_of_string (a ++ b)
    = list_ascii_of_string a ++ list_ascii_of_string b.
Proof.
  induction a as [|x a IH]; intros b; simpl; [reflexivity|].
  now rewrite IH.
Qed.

Lemma replaceAll_app :
  forall c by_ a b,
    replaceAll c by_ (a ++ b)
    = (replaceAll c by_ a ++ replaceAll c by_ b)%string.
Proof.
  intros c by_. induction a as [|x a IH]; intros b; simpl; [reflexivity|].
  destruct (Ascii.eqb x c); rewrite IH; simpl;
    [now rewrite string_app_assoc|reflexivity].
Qed.

Lemma escapeHtml_app :
  forall a b, escapeHtml (a ++ b) = (escapeHtml a ++ escapeHtml b)%string.
Proof.
  intros a b. unfold escapeHtml. now rewrite !replaceAll_app.
Qed.

Lemma escapeHtml_char :
  forall c, escapeHtml (str1 c) = escapeChar c.
Proof.
  intros c. unfold escapeHtml, escapeChar, str1.
  destruct (Ascii.eqb_spec c "&"%char) as [->|Hamp]; [reflexivity|].
  destruct (Ascii.eqb_spec c "<"%char) as [->|Hlt]; [reflexivity|].
  destruct (Ascii.eqb_spec c ">"%char) as [->|Hgt]; [reflexivity|].
  destruct (Ascii.eqb_spec c dquote) as [->|Hquot]; [reflexivity|].
  destruct (Ascii.eqb_spec c "'"%char) as [->|Hapos]; [reflexivity|].
  apply Ascii.eqb_neq in Hamp, Hlt, Hgt, Hquot, Hapos.
  cbn [replaceAll]. rewrite Hamp.
  cbn [replaceAll]. rewrite Hlt.
  cbn [replaceAll]. rewrite Hgt.
  cbn [replaceAll]. rewrite Hquot.
  cbn [replaceAll]. now rewrite Hapos.
Qed.

Lemma escapeHtml_cons :
  forall c rest,
    escapeHtml (String c rest) = (escapeChar c ++ escapeHtml rest)%string.
Proof.
  intros c rest. change (String c rest) with (str1 c ++ rest)%string.
  now rewrite escapeHtml_app, escapeHtml_char.
Qed.

(** The shape of [escapeChar]: an entity for one of the five characters,
    the character itself for any other. *)
Lemma escapeChar_cases :
  forall c,
    (c = "&"%char /\ escapeChar c = "&amp;")
    \/ (c = "<"%char /\ escapeChar c = "&lt;")
    \/ (c = ">"%char /\ escapeChar c = "&gt;")
    \/ (c = dquote /\ escapeChar c = "&quot;")
    \/ (c = "'"%char /\ escapeChar c = "&#039;")
    \/ (escapeChar c = str1 c
        /\ c <> "&"%char /\ c <> "<"%char /\ c <> ">"%char
        /\ c <> dquote /\ c <> "'"%char).
Proof.
  intros c. unfold escapeChar.
  destruct (Ascii.eqb_spec c "&"%char) as [->|Hamp]; [now left|right].
  destruct (Ascii.eqb_spec c "<"%char) as [->|Hlt]; [now left|right].
  destruct (Ascii.eqb_spec c ">"%char) as [->|Hgt]; [now left|right].
  destruct (Ascii.eqb_spec c dquote) as [->|Hquot]; [now left|right].
  destruct (Ascii.eqb_spec c "'"%char) as [->|Hapos]; [now left|right].
  repeat split; assumption.
Qed.

Lemma escapeChar_markup_free :
  forall c x,
    In x (list_ascii_of_string (escapeChar c)) ->
    x <> "<"%char /\ x <> ">"%char /\ x <> dquote /\ x <> "'"%char.
Proof.
  intros c x Hin.
  destruct (escapeChar_cases c)
    as [[_ Hc]|[[_ Hc]|[[_ Hc]|[[_ Hc]|[[_ Hc]|(Hc & _ & Hlt & Hgt & Hq & Ha)]]]]];
    rewrite Hc in Hin; simpl in Hin.
  1-5: repeat (destruct Hin as [<-|Hin];
               [repeat split; discriminate|]); contradiction.
  destruct Hin as [<-|[]]. auto.
Qed.

(** X17: the text [escapeHtml] returns has no [<], [>], double quote or
    apostrophe, whatever the input; and a text with none of these and no
    ampersand is returned as it is. *)
Theorem escapeHtml_leaves_no_markup :
  forall unsafe : string,
    (forall x,
        In x (list_ascii_of_string (escapeHtml unsafe)) ->
        x <> "<"%char /\ x <> ">"%char /\ x <> dquote /\ x <> "'"%char)
    /\ ((forall x,
           In x (list_ascii_of_string unsafe) ->
           x <> "&"%char /\ x <> "<"%char /\ x <> ">"%char
           /\ x <> dquote /\ x <> "'"%char) ->
        escapeHtml unsafe = unsafe).
Proof.
  induction unsafe as [|c rest [IHfree IHsame]].
  - split; [intros x []|reflexivity].
  - rewrite escapeHtml_cons. split.
    + intros x Hin. rewrite chars_app in Hin.
      apply in_app_or in Hin as [Hin|Hin].
      * eapply escapeChar_markup_free; eassumption.
      * now apply IHfree.
    + intros Hsafe.
      rewrite IHsame; [|intros x Hx; apply Hsafe; now right].
      destruct (Hsafe c (or_introl eq_refl)) as (Hamp & Hlt & Hgt & Hq & Ha).
      destruct (escapeChar_cases c)
        as [[Hc _]|[[Hc _]|[[Hc _]|[[Hc _]|[[Hc _]|[Hc _]]]]]];
        try contradiction.
      now rewrite Hc.
Qed.

(** X18: [escapeHtml] loses nothing: two texts with the same escaped form
    are the same text. *)
Theorem escapeHtml_injective :
  forall s1 s2 : string, escapeHtml s1 = escapeHtml s2 -> s1 = s2.
Proof.
  induction s1 as [|c1 r1 IH]; intros [|c2 r2] Heq.
  - reflexivity.
  - rewrite escapeHtml_cons in Heq. exfalso.
    destruct (escapeChar_cases c2)
      as [[_ Hc]|[[_ Hc]|[[_ Hc]|[[_ Hc]|[[_ Hc]|[Hc _]]]]]];
      rewrite Hc in Heq; discriminate.
  - rewrite escapeHtml_cons in Heq. exfalso.
    destruct (escapeChar_cases c1)
      as [[_ Hc]|[[_ Hc]|[[_ Hc]|[[_ Hc]|[[_ Hc]|[Hc _]]]]]];
      rewrite Hc in Heq; discriminate.
  - rewrite !escapeHtml_cons in Heq.
    destruct (escapeChar_cases c1)
      as [[E1 Hc1]|[[E1 Hc1]|[[E1 Hc1]|[[E1 Hc1]|[[E1 Hc1]|(Hc1 & N1 & _)]]]]];
      destruct (escapeChar_cases c2)
        as [[E2 Hc2]|[[E2 Hc2]|[[E2 Hc2]|[[E2 Hc2]|[[E2 Hc2]|(Hc2 & N2 & _)]]]]];
      rewrite Hc1, Hc2 in Heq; simpl in Heq;
      try discriminate;
      try (injection Heq as Heq; subst; f_equal; now apply IH);
      try (injection Heq as Hhead Heq; congruence).
Qed.

Lemma escapeHtml_injective_witness :
  "a<b" = "a<b".
Proof.
  exact (@escapeHtml_injective "a<b" "a<b" eq_refl).
Defined.

(** ** generateCSVContent *)

(** A value [escapeCSV] leaves as it is. *)
Lemma escapeCSV_plain :
  forall value,
    ~ In comma (list_ascii_of_string value) ->
    ~ In newline (list_ascii_of_string value) ->
    ~ In dquote (list_ascii_of_string value) ->
    escapeCSV value = value.
Proof.
  intros value Hc Hn Hq. unfold escapeCSV.
  apply includes_char_false in Hc, Hn, Hq. now rewrite Hc, Hn, Hq.
Qed.

Lemma escapeCSV_shape :
  forall value,
    (escapeCSV value = value
     /\ ~ In comma (list_ascii_of_string value)
     /\ ~ In newline (list_ascii_of_string value)
     /\ ~ In dquote (list_ascii_of_string value))
    \/ escapeCSV value
       = (str1 dquote
          ++ replaceAll dquote (String dquote (str1 dquote)) value
          ++ str1 dquote)%string.
Proof.
  intros value. unfold escapeCSV.
  destruct (includes value (str1 comma)) eqn:Hc; [now right|].
  destruct (includes value (str1 newline)) eqn:Hn; [now right|].
  destruct (includes value (str1 dquote)) eqn:Hq; [now right|].
  left. apply includes_char_false in Hc, Hn, Hq. auto.
Qed.

Lemma natToString_digits :
  forall n c,
    In c (list_ascii_of_string (natToString n)) ->
    c <> comma /\ c <> newline /\ c <> dquote.
Proof.
  intros n. unfold natToString. generalize (Nat.to_uint n) as d.
  induction d as [|d IH|d IH|d IH|d IH|d IH|d IH|d IH|d IH|d IH|d IH];
    intros c Hin; simpl in Hin; try contradiction;
    (destruct Hin as [<-|Hin];
     [repeat split; discriminate|now apply IH]).
Qed.

Lemma escapeCSV_natToString :
  forall n, escapeCSV (natToString n) = natToString n.
Proof.
  intros n.
  apply escapeCSV_plain; intros Hin;
    destruct (natToString_digits _ _ Hin) as (H1 & H2 & H3); congruence.
Qed.

Lemma csvRow_escapes_rowValues :
  forall user, csvRow user = map escapeCSV (rowValues user).
Proof.
  intros user. unfold csvRow, rowValues. cbn [map].
  rewrite escapeCSV_natToString.
  now destruct (0 <? List.length (ur_memberships user))%nat.
Qed.

Lemma readAll_app :
  forall a b r, readAll r (a ++ b) = readAll (readAll r a) b.
Proof.
  induction a as [|c a IH]; intros b r; simpl; [reflexivity|]. apply IH.
Qed.

(** Outside quotes a comma ends the field and a line feed the record. *)
Lemma readChar_comma :
  forall r,
    csv_mode r <> Quoted -> readChar r comma = endField r.
Proof.
  intros [recs rec fld m] Hm. simpl in Hm.
  destruct m; try contradiction; reflexivity.
Qed.

Lemma readChar_newline :
  forall r,
    csv_mode r <> Quoted -> readChar r newline = endRecord r.
Proof.
  intros [recs rec fld m] Hm. simpl in Hm.
  destruct m; try contradiction; reflexivity.
Qed.

Lemma readAll_plain :
  forall value recs rec fld m,
    ~ In comma (list_ascii_of_string value) ->
    ~ In newline (list_ascii_of_string value) ->
    ~ In dquote (list_ascii_of_string value) ->
    m = FieldStart \/ m = Unquoted ->
    exists m',
      m' <> Quoted
      /\ readAll {| csv_records := recs; csv_record := rec;
                    csv_field := fld; csv_mode := m |} value
         = {| csv_records := recs; csv_record := rec;
              csv_field := (fld ++ value)%string; csv_mode := m' |}.
Proof.
  induction value as [|c rest IH]; intros recs rec fld m Hc Hn Hq Hm.
  - exists m. simpl. rewrite string_app_nil_r.
    split; [destruct Hm; subst; discriminate|reflexivity].
  - simpl in Hc, Hn, Hq.
    assert (Hcc : Ascii.eqb c comma = false)
      by (apply Ascii.eqb_neq; intros ->; apply Hc; now left).
    assert (Hcn : Ascii.eqb c newline = false)
      by (apply Ascii.eqb_neq; intros ->; apply Hn; now left).
    assert (Hcq : Ascii.eqb c dquote = false)
      by (apply Ascii.eqb_neq; intros ->; apply Hq; now left).
    destruct (IH recs rec (fld ++ str1 c)%string Unquoted) as (m' & Hm' & Hrun);
      try tauto.
    exists m'. split; [assumption|].
    cbn [readAll].
    replace (readChar {| csv_records := recs; csv_record := rec;
                         csv_field := fld; csv_mode := m |} c)
      with {| csv_records := recs; csv_record := rec;
              csv_field := (fld ++ str1 c)%string; csv_mode := Unquoted |}.
    + rewrite Hrun. rewrite string_app_assoc. reflexivity.
    + destruct Hm; subst m; unfold readChar, outsideQuotes; simpl;
        now rewrite ?Hcq, Hcc, Hcn.
Qed.

Lemma readAll_quoted_body :
  forall value recs rec fld,
    readAll {| csv_records := recs; csv_record := rec;
               csv_field := fld; csv_mode := Quoted |}
      (replaceAll dquote (String dquote (str1 dquote)) value)
    = {| csv_records := recs; csv_record := rec;
         csv_field := (fld ++ value)%string; csv_mode := Quoted |}.
Proof.
  induction value as [|c rest IH]; intros recs rec fld.
  - simpl. now rewrite string_app_nil_r.
  - cbn [replaceAll].
    destruct (Ascii.eqb c dquote) eqn:Hc.
    + apply Ascii.eqb_eq in Hc. subst c.
      cbn [append str1 readAll]. unfold readChar at 2. cbn [csv_mode].
      rewrite Ascii.eqb_refl. unfold readChar at 1. cbn [csv_mode].
      rewrite Ascii.eqb_refl. unfold keepChar. cbn.
      fold (str1 dquote). rewrite IH. now rewrite string_app_assoc.
    + cbn [readAll]. unfold readChar. cbn [csv_mode]. rewrite Hc.
      unfold keepChar. cbn. rewrite IH. now rewrite string_app_assoc.
Qed.

(** Reading an escaped value at the start of a field gives the value. *)
Lemma readAll_field :
  forall value recs rec,
    exists m,
      m <> Quoted
      /\ readAll {| csv_records := recs; csv_record := rec;
                    csv_field := EmptyString; csv_mode := FieldStart |}
           (escapeCSV value)
         = {| csv_records := recs; csv_record := rec;
              csv_field := value; csv_mode := m |}.
Proof.
  intros value recs rec.
  destruct (escapeCSV_shape value) as [(Hsame & Hc & Hn & Hq)|Hquoted].
  - rewrite Hsame.
    destruct (readAll_plain value recs rec EmptyString (m := FieldStart)
                Hc Hn Hq (or_introl eq_refl)) as (m & Hm & Hrun).
    exists m. split; [assumption|exact Hrun].
  - rewrite Hquoted. exists QuoteSeen. split; [discriminate|].
    cbn [append str1 readAll]. unfold readChar at 1. cbn [csv_mode].
    rewrite Ascii.eqb_refl. fold (str1 dquote).
    rewrite readAll_app, readAll_quoted_body. cbn [append].
    cbn [str1 readAll]. unfold readChar. cbn [csv_mode].
    now rewrite Ascii.eqb_refl.
Qed.

(** Reading a line of escaped values joined by commas gives the values. *)
Lemma readAll_line :
  forall values value recs rec,
    exists m pre lst,
      m <> Quoted
      /\ pre ++ [lst] = value :: values
      /\ readAll {| csv_records := recs; csv_record := rec;
                    csv_field := EmptyString; csv_mode := FieldStart |}
           (String.concat "," (map escapeCSV (value :: values)))
         = {| csv_records := recs; csv_record := rec ++ pre;
              csv_field := lst; csv_mode := m |}.
Proof.
  induction values as [|next rest IH]; intros value recs rec.
  - destruct (readAll_field value recs rec) as (m & Hm & Hrun).
    exists m, [], value. rewrite app_nil_r. simpl. auto.
  - destruct (readAll_field value recs rec) as (m & Hm & Hrun).
    destruct (IH next recs (rec ++ [value]))
      as (m' & pre & lst & Hm' & Hsplit & Hrest).
    exists m', (value :: pre), lst.
    split; [assumption|split; [simpl; now rewrite Hsplit|]].
    change (String.concat "," (map escapeCSV (value :: next :: rest)))
      with (escapeCSV value
            ++ String comma
                 (String.concat "," (map escapeCSV (next :: rest))))%string.
    rewrite readAll_app, Hrun. cbn [readAll].
    rewrite readChar_comma by assumption.
    unfold endField. cbn [csv_records csv_record csv_field].
    rewrite Hrest. now rewrite <- app_assoc.
Qed.

(** Reading lines joined by line feeds gives the records. *)
Lemma readAll_lines :
  forall records values value recs,
    Forall (fun record => record <> []) records ->
    csv_records
      (endRecord
         (readAll {| csv_records := recs; csv_record := [];
                     csv_field := EmptyString; csv_mode := FieldStart |}
            (String.concat (str1 newline)
               (map (fun record => String.concat "," (map escapeCSV record))
                  ((value :: values) :: records)))))
    = recs ++ (value :: values) :: records.
Proof.
  induction records as [|record more IH]; intros values value recs Hne.
  - change (String.concat (str1 newline)
              (map (fun record => String.concat "," (map escapeCSV record))
                 [value :: values]))
      with (String.concat "," (map escapeCSV (value :: values))).
    destruct (readAll_line values value recs [])
      as (m & pre & lst & Hm & Hsplit & Hrun).
    rewrite Hrun. unfold endRecord. cbn. now rewrite Hsplit.
  - inversion Hne as [|? ? Hrecord Hmore]; subst.
    destruct record as [|value' values']; [contradiction|].
    destruct (readAll_line values value recs [])
      as (m & pre & lst & Hm & Hsplit & Hrun).
    change (String.concat (str1 newline)
              (map (fun record => String.concat "," (map escapeCSV record))
                 ((value :: values) :: (value' :: values') :: more)))
      with (String.concat "," (map escapeCSV (value :: values))
            ++ String newline
                 (String.concat (str1 newline)
                    (map (fun record => String.concat "," (map escapeCSV record))
                       ((value' :: values') :: more))))%string.
    rewrite readAll_app, Hrun. cbn [readAll].
    rewrite readChar_newline by assumption.
    unfold endRecord at 2. cbn [csv_records csv_record csv_field app].
    rewrite Hsplit, IH by assumption.
    now rewrite <- app_assoc.
Qed.

(** X19: a CSV reader gets back from the generated file exactly what went
    in: the header record, then for every result, in order, the record of
    its six values, whatever commas, quotes or line feeds the usernames,
    URLs or organization names hold. *)
Theorem generateCSVContent_reads_back :
  forall results : list UserResult,
    parseCSV (generateCSVContent results)
    = csvHeaders :: map rowValues results.
Proof.
  intros results. unfold parseCSV, generateCSVContent, csvStart.
  replace (String.concat "," csvHeaders
           :: map (String.concat ",") (map csvRow results))
    with (map (fun record => String.concat "," (map escapeCSV record))
            (csvHeaders :: map rowValues results)).
  - unfold csvHeaders at 1.
    rewrite readAll_lines; [reflexivity|].
    apply Forall_forall. intros record Hin.
    apply in_map_iff in Hin as (user & <- & _). discriminate.
  - cbn [map]. f_equal. rewrite !map_map. apply map_ext.
    intros user. now rewrite csvRow_escapes_rowValues.
Qed.

(** ** checkUserMemberships without organizations *)

Lemma set_absent :
  forall (V : Type) (m : JSMap.t V) (k : string) (v : V),
    ~ In k (JSMap.keys m) -> JSMap.set k v m = m ++ [(k, v)].
Proof.
  intros V m. induction m as [|[k0 v0] rest IH]; intros k v Hnot; simpl.
  - reflexivity.
  - simpl in Hnot.
    destruct (String.eqb_spec k k0) as [->|Hne]; [tauto|].
    rewrite IH; [reflexivity|tauto].
Qed.

Lemma fold_commit_without_organizations :
  forall names um,
    NoDup names ->
    (forall k, In k names -> ~ In k (JSMap.keys um)) ->
    fold_left (fun um task => commitWhenSettled task um)
      (map (initialTask []) names) um
    = um ++ map (fun k => (k, {| um_username := k;
                                 um_organizations := JSMap.empty |})) names.
Proof.
  induction names as [|k rest IH]; intros um Hnd Hfresh; simpl.
  - now rewrite app_nil_r.
  - inversion Hnd as [|? ? Hnotin Hrest]; subst.
    unfold commitWhenSettled at 2. simpl.
    rewrite set_absent by (apply Hfresh; now left).
    rewrite IH; [now rewrite <- app_assoc|assumption|].
    intros k' Hk' Hin. unfold JSMap.keys in Hin.
    rewrite map_app, in_app_iff in Hin. simpl in Hin.
    destruct Hin as [Hin|[<-|[]]]; [|contradiction].
    eapply Hfresh; [right; eassumption|exact Hin].
Qed.

Lemma settle_without_organizations :
  forall toLowerCase octokit schedule engine,
    fold_left (settle toLowerCase octokit []) schedule engine = engine.
Proof.
  intros toLowerCase octokit.
  induction schedule as [|[i j] rest IH]; intros engine; simpl;
    [reflexivity|].
  replace (match nth_error (tasks engine) i with
           | Some task =>
               match nth_error (@nil OrganizationInfo) j with
               | Some org => _
               | None => engine
               end
           | None => engine
           end) with engine; [apply IH|].
  destruct (nth_error (tasks engine) i); [|reflexivity].
  now destruct j.
Qed.

(** X20: with no organization at all the function fulfils whatever the
    schedule, with one entry per started username, in the order of the
    input, each with an empty organizations map. *)
Theorem no_organizations_gives_empty_memberships :
  forall (toLowerCase : string -> string) (octokit : Octokit)
         (usernames : list string) (schedule : list (nat * nat)),
    checkUserMemberships toLowerCase octokit [] usernames schedule
    = Some (map (fun k => (k, {| um_username := k;
                                 um_organizations := JSMap.empty |}))
              (worklist toLowerCase usernames)).
Proof.
  intros toLowerCase octokit usernames schedule.
  unfold checkUserMemberships.
  fold (worklist toLowerCase usernames).
  rewrite settle_without_organizations.
  unfold startEngine. cbn [tasks userMemberships].
  rewrite fold_commit_without_organizations.
  - simpl.
    replace (forallb _ _) with true; [reflexivity|].
    symmetry. apply forallb_forall. intros task Hin.
    apply in_map_iff in Hin as (k & <- & _). reflexivity.
  - apply worklist_NoDup.
  - intros k _ [].
Qed.
